(** * Load-test metrics: aggregation, classification, reporting, pacing

    A shallow embedding of the measuring core of the Kumbaya DEX load-testing
    suite: the metrics accumulator, the textual error classifier and the
    summary reporter of [src/utils/client.ts], and the sustained-rate loop
    shared by [src/scripts/load-quotes.ts] and [src/scripts/load-pool-reads.ts]
    (request dispatch, pacing between requests, process exit status).
    Around that core: the scripts' command-line options, their choice of
    network, chain and pool ([src/config/addresses.ts]), the loop of the
    swap script, and the burst, chunking and pool-address helpers of the
    load tests.

    Conventions of the embedding.
    - Counters are [nat]: they start at 0 and are only ever incremented, and
      a run stays far below 2^53, where [++] on a JS number stops being exact.
    - Durations and timestamps are [Z]: every caller passes a difference of
      two [Date.now()] readings, an integral number of milliseconds.
    - Quotients are JS numbers, see [JSNum]: exact rationals extended with
      the two infinities and NaN, so that a division by zero is visible.
      They carry the statements that rounding cannot change: comparisons,
      finiteness, bounds.  Where the rounded value itself is the subject (the
      reporter's average) the expression is evaluated in binary64, see
      [Binary64].
    - Strings are sequences of 8-bit code units.  [toLowerCase] folds the
      letters A-Z; the four needles of the classifier are ASCII, and no
      non-ASCII letter lower-cases to one of their letters alone.
    - Arrays are lists.  Where copying against updating in place matters
      (the reporter's sort) arrays live in a store and are reached through
      references, see [Heap]. *)

From Stdlib Require Import ZArith QArith Qreduction Qround Lia Lqa String Ascii.
From Stdlib Require Import PrimFloat FloatOps SpecFloat Uint63.
From stdpp Require Import base list sorting gmap.

Local Open Scope Z_scope.

(** ** JavaScript numbers *)

Module JSNum.

(** A [number] is a finite value, an infinity, or NaN.  Finite values are
    kept exact (the rounding of binary64 is not modelled) and no
    distinction is made between the two zeros. *)
Inductive number : Type :=
| Finite (q : Q)
| PosInf
| NegInf
| NaN.

Definition of_Z (z : Z) : number := Finite (inject_Z z).
Definition of_nat (n : nat) : number := of_Z (Z.of_nat n).

Definition isFinite (x : number) : bool :=
  match x with Finite _ => true | _ => false end.

Definition isNaN (x : number) : bool :=
  match x with NaN => true | _ => false end.

Definition Qltb (a b : Q) : bool := negb (Qle_bool b a).

(** [x < y]; every comparison with NaN is false. *)
Definition lt (x y : number) : bool :=
  match x, y with
  | NaN, _ | _, NaN => false
  | Finite a, Finite b => Qltb a b
  | NegInf, NegInf => false
  | NegInf, _ => true
  | _, NegInf => false
  | PosInf, _ => false
  | Finite _, PosInf => true
  end.

(** [x - y]. *)
Definition sub (x y : number) : number :=
  match x, y with
  | NaN, _ | _, NaN => NaN
  | Finite a, Finite b => Finite (Qred (a - b))
  | PosInf, PosInf | NegInf, NegInf => NaN
  | PosInf, _ => PosInf
  | NegInf, _ => NegInf
  | Finite _, PosInf => NegInf
  | Finite _, NegInf => PosInf
  end.

Definition sign (q : Q) : comparison := (0 ?= q)%Q.

(** The infinity of the given sign; a zero sign is NaN. *)
Definition signedInf (s : comparison) : number :=
  match s with
  | Lt => PosInf
  | Gt => NegInf
  | Eq => NaN
  end.

Definition negate (x : number) : number :=
  match x with
  | Finite q => Finite (Qred (- q))
  | PosInf => NegInf
  | NegInf => PosInf
  | NaN => NaN
  end.

(** [x / y].  A finite non-zero value over zero is an infinity, zero over
    zero is NaN, an infinity over an infinity is NaN. *)
Definition div (x y : number) : number :=
  match x, y with
  | NaN, _ | _, NaN => NaN
  | Finite a, Finite b =>
      if Qeq_bool b 0 then signedInf (sign a) else Finite (Qred (a / b))
  | Finite _, _ => Finite 0
  | PosInf, Finite b =>
      match sign b with Gt => NegInf | _ => PosInf end
  | NegInf, Finite b =>
      match sign b with Gt => PosInf | _ => NegInf end
  | _, _ => NaN
  end.

(** [x * y]. *)
Definition mul (x y : number) : number :=
  match x, y with
  | NaN, _ | _, NaN => NaN
  | Finite a, Finite b => Finite (Qred (a * b))
  | Finite a, PosInf | PosInf, Finite a => signedInf (sign a)
  | Finite a, NegInf | NegInf, Finite a => negate (signedInf (sign a))
  | PosInf, PosInf | NegInf, NegInf => PosInf
  | PosInf, NegInf | NegInf, PosInf => NegInf
  end.

End JSNum.

Import JSNum.

(** ** Strings *)

(** One code unit of [String.prototype.toLowerCase]. *)
Definition lowerChar (c : ascii) : ascii :=
  let n := nat_of_ascii c in
  if (65 <=? n)%nat && (n <=? 90)%nat then ascii_of_nat (n + 32) else c.

Definition upperChar (c : ascii) : ascii :=
  let n := nat_of_ascii c in
  if (97 <=? n)%nat && (n <=? 122)%nat then ascii_of_nat (n - 32) else c.

Fixpoint toLowerCase (s : string) : string :=
  match s with
  | EmptyString => EmptyString
  | String c s' => String (lowerChar c) (toLowerCase s')
  end.

Fixpoint toUpperCase (s : string) : string :=
  match s with
  | EmptyString => EmptyString
  | String c s' => String (upperChar c) (toUpperCase s')
  end.

(** [s.includes(t)]: [t] occurs in [s] as a contiguous run of code units. *)
Fixpoint includes (s t : string) : bool :=
  String.prefix t s
  || match s with
     | EmptyString => false
     | String _ s' => includes s' t
     end.

(** [s.slice(0, n)]. *)
Definition sliceTo (n : nat) (s : string) : string := String.substring 0 n s.

(** ** The metrics record *)

Record Error : Type := mkError { message : string }.

Record ErrorRecord : Type := mkErrorRecord {
  err_message : string;
  err_timestamp : Z
}.

(** The record is parametric in how the durations array is held: by value
    ([LoadTestMetrics], used wherever the array has a single owner) or by
    reference into a store of arrays (see [Heap]). *)
Record Metrics (D : Type) : Type := mkMetrics {
  totalRequests : nat;
  successfulRequests : nat;
  failedRequests : nat;
  rateLimitErrors : nat;
  otherErrors : nat;
  totalDurationMs : Z;
  requestDurations : D;
  errors : list ErrorRecord
}.

Arguments mkMetrics {D}.
Arguments totalRequests {D}.
Arguments successfulRequests {D}.
Arguments failedRequests {D}.
Arguments rateLimitErrors {D}.
Arguments otherErrors {D}.
Arguments totalDurationMs {D}.
Arguments requestDurations {D}.
Arguments errors {D}.

Abbreviation LoadTestMetrics := (Metrics (list Z)).

Definition createMetrics : LoadTestMetrics :=
  {| totalRequests := 0;
     successfulRequests := 0;
     failedRequests := 0;
     rateLimitErrors := 0;
     otherErrors := 0;
     totalDurationMs := 0;
     requestDurations := [];
     errors := [] |}.

Definition recordSuccess (metrics : LoadTestMetrics) (durationMs : Z)
  : LoadTestMetrics :=
  {| totalRequests := S (totalRequests metrics);
     successfulRequests := S (successfulRequests metrics);
     failedRequests := failedRequests metrics;
     rateLimitErrors := rateLimitErrors metrics;
     otherErrors := otherErrors metrics;
     totalDurationMs := totalDurationMs metrics;
     requestDurations := requestDurations metrics ++ [durationMs];
     errors := errors metrics |}.

(** The condition of the [if] in [recordError], on the lower-cased message. *)
Definition isRateLimitMessage (msg : string) : bool :=
  let message := toLowerCase msg in
  includes message "rate"%string || includes message "limit"%string
  || includes message "429"%string || includes message "too many"%string.

(** [now] is the reading of [Date.now()] taken for the error record. *)
Definition recordError (metrics : LoadTestMetrics) (error : Error) (now : Z)
  : LoadTestMetrics :=
  let rateLimited := isRateLimitMessage (message error) in
  {| totalRequests := S (totalRequests metrics);
     successfulRequests := successfulRequests metrics;
     failedRequests := S (failedRequests metrics);
     rateLimitErrors :=
       if rateLimited then S (rateLimitErrors metrics)
       else rateLimitErrors metrics;
     otherErrors :=
       if rateLimited then otherErrors metrics
       else S (otherErrors metrics);
     totalDurationMs := totalDurationMs metrics;
     requestDurations := requestDurations metrics;
     errors :=
       errors metrics
       ++ [{| err_message := message error; err_timestamp := now |}] |}.

(** ** The reporter *)

(** The comparator handed to [Array.prototype.sort]. *)
Definition compareFn (a b : Z) : Z := a - b.

(** [sort] by a comparator, as a stable insertion sort: [x] goes in front of
    the first element it does not compare greater than.  For a comparator
    that orders numbers the outcome does not depend on the engine's
    algorithm (see [sorted_copy_unique]). *)
Fixpoint insertBy (cmp : Z → Z → Z) (x : Z) (l : list Z) : list Z :=
  match l with
  | [] => [x]
  | y :: l' => if cmp x y <=? 0 then x :: l else y :: insertBy cmp x l'
  end.

Definition sortBy (cmp : Z → Z → Z) (l : list Z) : list Z :=
  foldr (insertBy cmp) [] l.

(** [Math.floor(length * p)] for [p] = [pct]/100, in exact arithmetic.  For
    the three constants used (0.5, 0.95, 0.99) the binary64 product floors
    to the same integer: when length × p is an integer the product rounds
    to it, and otherwise it is at least 1/100 away from the next integer;
    [floorOfLength_binary64] checks the agreement on the hardware
    operations for the lengths of a load test. *)
Definition floorOfLength (len : nat) (pct : Z) : nat :=
  Z.to_nat (Z.of_nat len * pct / 100).

(** [Math.floor] of a binary64 value, through its sign, mantissa and
    exponent. *)
Definition floorDouble (x : float) : Z :=
  match Prim2SF x with
  | S754_finite false m e => Z.shiftl (Z.pos m) e
  | S754_finite true m e => Z.shiftl (Z.neg m) e
  | _ => 0
  end.

(** [Math.floor(length * p)] as the engine computes it. *)
Definition floorTimes (len : Z) (p : float) : Z :=
  floorDouble (PrimFloat.mul (PrimFloat.of_uint63 (Uint63.of_Z len)) p).

(** The binary64 values of the literals [0.5], [0.95] and [0.99]. *)
Definition half : float := 0x1p-1%float.
Definition p95th : float := 0x1.e666666666666p-1%float.
Definition p99th : float := 0x1.fae147ae147aep-1%float.

Definition indexAgrees (len : Z) : bool :=
  (floorTimes len half =? len * 50 / 100)
  && (floorTimes len p95th =? len * 95 / 100)
  && (floorTimes len p99th =? len * 99 / 100).

(** [indexAgrees] on the [n] lengths from [len] on. *)
Fixpoint indexAgreesFrom (n : nat) (len : Z) : bool :=
  match n with
  | O => true
  | S n' => indexAgrees len && indexAgreesFrom n' (len + 1)
  end.

(** [a[i] ?? 0]. *)
Definition atOrZero (a : list Z) (i : nat) : Z := default 0 (a !! i).

Definition percentile (sortedDurations : list Z) (pct : Z) : Z :=
  atOrZero sortedDurations (floorOfLength (length sortedDurations) pct).

(** What [printMetricsSummary] prints, before formatting with [toFixed]. *)
Record Summary : Type := mkSummary {
  sum_total : nat;
  sum_successful : nat;
  sum_successPct : number;
  sum_failed : nat;
  sum_failurePct : number;
  sum_rateLimit : nat;
  sum_other : nat;
  avgDuration : number;
  p50 : Z;
  p95 : Z;
  p99 : Z;
  sum_totalDurationMs : Z;
  throughput : number;
  firstErrors : list string
}.

Definition average (durations : list Z) : number :=
  if (0 <? length durations)%nat
  then div (of_Z (foldl Z.add 0 durations)) (of_nat (length durations))
  else of_Z 0.

Definition pctOfTotal (part total : nat) : number :=
  mul (div (of_nat part) (of_nat total)) (of_Z 100).

Definition requestsPerSecond (total : nat) (durationMs : Z) : number :=
  div (of_nat total) (div (of_Z durationMs) (of_Z 1000)).

(** Everything of the summary but the three percentiles, which need the
    sorted copy. *)
Definition summaryOf {D} (metrics : Metrics D) (durations sortedDurations : list Z)
  : Summary :=
  {| sum_total := totalRequests metrics;
     sum_successful := successfulRequests metrics;
     sum_successPct :=
       pctOfTotal (successfulRequests metrics) (totalRequests metrics);
     sum_failed := failedRequests metrics;
     sum_failurePct :=
       pctOfTotal (failedRequests metrics) (totalRequests metrics);
     sum_rateLimit := rateLimitErrors metrics;
     sum_other := otherErrors metrics;
     avgDuration := average durations;
     p50 := percentile sortedDurations 50;
     p95 := percentile sortedDurations 95;
     p99 := percentile sortedDurations 99;
     sum_totalDurationMs := totalDurationMs metrics;
     throughput :=
       requestsPerSecond (totalRequests metrics) (totalDurationMs metrics);
     firstErrors :=
       (λ e, sliceTo 100 (err_message e)) <$> take 5 (errors metrics) |}.

(** [printMetricsSummary] on a metrics value: the sorted copy is a new list. *)
Definition printMetricsSummary (metrics : LoadTestMetrics) : Summary :=
  let sortedDurations := sortBy compareFn (requestDurations metrics) in
  summaryOf metrics (requestDurations metrics) sortedDurations.

(** ** Arrays behind references *)

Module Heap.

(** A store of number arrays.  A program reads and updates the store and
    fails on a dangling reference. *)
Definition Prog (A : Type) : Type :=
  gmap positive (list Z) → option (A * gmap positive (list Z)).

#[export] Instance prog_ret : MRet Prog := λ A a h, Some (a, h).

#[export] Instance prog_bind : MBind Prog := λ A B k p h,
  match p h with
  | Some (a, h') => k a h'
  | None => None
  end.

(** Reading an array ([a.length], [a.reduce], [a[i]]) leaves the store as
    it is. *)
Definition elements (a : positive) : Prog (list Z) := λ h,
  match h !! a with
  | Some xs => Some (xs, h)
  | None => None
  end.

(** [[...a]]: a new array with the elements of [a]. *)
Definition spread (a : positive) : Prog positive := λ h,
  match h !! a with
  | Some xs => let b := fresh (dom h) in Some (b, <[b := xs]> h)
  | None => None
  end.

(** [a.sort(cmp)]: sorts the receiver in place and returns it. *)
Definition sort (cmp : Z → Z → Z) (a : positive) : Prog positive := λ h,
  match h !! a with
  | Some xs => Some (a, <[a := sortBy cmp xs]> h)
  | None => None
  end.

(** [printMetricsSummary] on a metrics object whose [requestDurations]
    field refers to an array in the store. *)
Definition printMetricsSummary (metrics : Metrics positive) : Prog Summary :=
  durations ← elements (requestDurations metrics);
  copy ← spread (requestDurations metrics);
  sortedDurations ← sort compareFn copy;
  sorted ← elements sortedDurations;
  mret (summaryOf metrics durations sorted).

(** The metrics value an object stands for, given its durations. *)
Definition snapshot (metrics : Metrics positive) (durations : list Z)
  : LoadTestMetrics :=
  {| totalRequests := totalRequests metrics;
     successfulRequests := successfulRequests metrics;
     failedRequests := failedRequests metrics;
     rateLimitErrors := rateLimitErrors metrics;
     otherErrors := otherErrors metrics;
     totalDurationMs := totalDurationMs metrics;
     requestDurations := durations;
     errors := errors metrics |}.

End Heap.

(** ** Dispatching one request *)

(** A settled promise. *)
Inductive Settled (A : Type) : Type :=
| Fulfilled (value : A)
| Rejected (reason : Error).

Arguments Fulfilled {A}.
Arguments Rejected {A}.

(** A reaction runs to completion against the metrics of the run: returning
    settles the derived promise as fulfilled, throwing as rejected. *)
Definition Reaction (A B : Type) : Type :=
  A → LoadTestMetrics → Settled B * LoadTestMetrics.

(** [p.then(onFulfilled)]: a rejection passes through. *)
Definition then_ {A B} (p : Settled A) (onFulfilled : Reaction A B)
  (metrics : LoadTestMetrics) : Settled B * LoadTestMetrics :=
  match p with
  | Fulfilled v => onFulfilled v metrics
  | Rejected e => (Rejected e, metrics)
  end.

(** [p.catch(onRejected)]: a fulfilment passes through. *)
Definition catch_ {A} (p : Settled A) (onRejected : Reaction Error A)
  (metrics : LoadTestMetrics) : Settled A * LoadTestMetrics :=
  match p with
  | Fulfilled v => (Fulfilled v, metrics)
  | Rejected e => onRejected e metrics
  end.

(** [operation().then(() => recordSuccess(metrics, Date.now() - reqStart))
                 .catch((error) => recordError(metrics, error))]
    once the operation has settled; [now] is the clock at that moment.
    Neither callback has a [throw] on any path. *)
Definition dispatch {R} (reqStart : Z) (operation : Settled R) (now : Z)
  (metrics : LoadTestMetrics) : Settled () * LoadTestMetrics :=
  let '(recorded, metrics) :=
    then_ operation
      (λ _ m, (Fulfilled (), recordSuccess m (now - reqStart))) metrics in
  catch_ recorded (λ error m, (Fulfilled (), recordError m error now)) metrics.

(** One dispatched request, as it completes. *)
Record Completion (R : Type) : Type := mkCompletion {
  c_reqStart : Z;
  c_outcome : Settled R;
  c_now : Z
}.

Arguments mkCompletion {R}.
Arguments c_reqStart {R}.
Arguments c_outcome {R}.
Arguments c_now {R}.

(** [await Promise.all(pendingRequests)]: the reactions of all dispatched
    requests have run, one at a time, in completion order.  The result is
    the metrics and the settled [pendingRequests]. *)
Definition settleAll {R} (completions : list (Completion R))
  (metrics : LoadTestMetrics) : list (Settled ()) * LoadTestMetrics :=
  foldl
    (λ '(settled, m) c,
       let '(p, m') := dispatch (c_reqStart c) (c_outcome c) (c_now c) m in
       (settled ++ [p], m'))
    ([], metrics) completions.

(** ** A run as a sequence of recorded outcomes *)

Inductive Call : Type :=
| Success (durationMs : Z)
| Failure (error : Error) (now : Z).

Definition record (metrics : LoadTestMetrics) (c : Call) : LoadTestMetrics :=
  match c with
  | Success d => recordSuccess metrics d
  | Failure e now => recordError metrics e now
  end.

Definition run (calls : list Call) : LoadTestMetrics :=
  foldl record createMetrics calls.

(** [metrics.totalDurationMs = Date.now() - startTime], once every pending
    request has settled. *)
Definition finish (metrics : LoadTestMetrics) (startTime now : Z)
  : LoadTestMetrics :=
  {| totalRequests := totalRequests metrics;
     successfulRequests := successfulRequests metrics;
     failedRequests := failedRequests metrics;
     rateLimitErrors := rateLimitErrors metrics;
     otherErrors := otherErrors metrics;
     totalDurationMs := now - startTime;
     requestDurations := requestDurations metrics;
     errors := errors metrics |}.

(** ** Pacing of the sustained loop *)

(** [const intervalMs = 1000 / options.rps]. *)
Definition intervalMs (rps : number) : number := div (of_Z 1000) rps.

(** The end of one iteration: [Some d] when the loop suspends for [d]
    milliseconds, [None] when it goes on at once. *)
Definition pace (elapsed : Z) (intervalMs : number) : option number :=
  if lt (of_Z elapsed) intervalMs
  then Some (sub intervalMs (of_Z elapsed))
  else None.

(** The loop against the readings of [Date.now()] it takes, in order: the
    loop test, [reqStart], and the reading [elapsed] is computed from.  The
    result lists what each iteration did at its end.  (The reading of the
    progress line feeds only the console.) *)
Fixpoint sustainedLoop (endTime : Z) (intervalMs : number) (clock : list Z)
  : list (option number) :=
  match clock with
  | t :: reqStart :: t' :: clock' =>
      if t <? endTime
      then pace (t' - reqStart) intervalMs
             :: sustainedLoop endTime intervalMs clock'
      else []
  | _ => []
  end.

(** ** Exit status of the scripts *)

(** The end of [main] after the summary: [process.exit(1)] on a rate-limit
    error, [process.exit(1)] on any failure, else [main] returns and the
    process ends with status 0. *)
Definition exitCode (metrics : LoadTestMetrics) : Z :=
  if (0 <? rateLimitErrors metrics)%nat then 1
  else if (0 <? failedRequests metrics)%nat then 1
  else 0.

(** ** The reporter's average in binary64 *)

Module Binary64.

(** An integer as the engine holds it; exact for magnitudes up to 2^53. *)
Definition ofZ (z : Z) : float :=
  if z <? 0 then PrimFloat.opp (PrimFloat.of_uint63 (Uint63.of_Z (- z)))
  else PrimFloat.of_uint63 (Uint63.of_Z z).

(** [durations.reduce((a, b) => a + b, 0)]. *)
Definition sum (durations : list Z) : float :=
  foldl PrimFloat.add PrimFloat.zero (ofZ <$> durations).

(** [avgDuration] of [printMetricsSummary], the sum over the count as the
    engine divides. *)
Definition average (durations : list Z) : float :=
  if (0 <? length durations)%nat
  then PrimFloat.div (sum durations) (ofZ (Z.of_nat (length durations)))
  else PrimFloat.zero.

Definition avgDuration (metrics : LoadTestMetrics) : float :=
  average (requestDurations metrics).


End Binary64.

(** ** Vocabulary of the statements *)

(** The four equations that tie the counters and the two sequences. *)
Definition consistent (m : LoadTestMetrics) : Prop :=
  totalRequests m = (successfulRequests m + failedRequests m)%nat
  ∧ failedRequests m = (rateLimitErrors m + otherErrors m)%nat
  ∧ length (requestDurations m) = successfulRequests m
  ∧ length (errors m) = failedRequests m.

(** The four substrings the classifier looks for. *)
Definition needles : list string :=
  ["rate"%string; "limit"%string; "429"%string; "too many"%string].

(** The wording of the classifier: the lower-cased message contains one of
    the four substrings. *)
Definition mentionsRateLimit (msg : string) : Prop :=
  ∃ needle pre post,
    needle ∈ needles ∧ toLowerCase msg = (pre ++ needle ++ post)%string.

(** The call an outcome is recorded as. *)
Definition callOf {R} (c : Completion R) : Call :=
  match c_outcome c with
  | Fulfilled _ => Success (c_now c - c_reqStart c)
  | Rejected e => Failure e (c_now c)
  end.

(** [v] is the element at index floor(length × p) of [sorted], and 0 when
    that index is out of bounds. *)
Definition nearestRank (sorted : list Z) (p : Q) (v : Z) : Prop :=
  let i := Z.to_nat (Qfloor (inject_Z (Z.of_nat (length sorted)) * p)) in
  ((i < length sorted)%nat → sorted !! i = Some v)
  ∧ ((length sorted ≤ i)%nat → v = 0).

(** The sum of a sequence, written without an accumulator. *)
Definition sumZ (l : list Z) : Z := foldr Z.add 0 l.


(** Two metrics with the same counters whose sequences hold the same
    entries, in whatever order. *)
Definition sameTotals (m m' : LoadTestMetrics) : Prop :=
  totalRequests m = totalRequests m'
  ∧ successfulRequests m = successfulRequests m'
  ∧ failedRequests m = failedRequests m'
  ∧ rateLimitErrors m = rateLimitErrors m'
  ∧ otherErrors m = otherErrors m'
  ∧ requestDurations m ≡ₚ requestDurations m'
  ∧ errors m ≡ₚ errors m'.

(** ** Vocabulary of the further statements *)

(** The durations of the successes among [calls], in the order recorded. *)
Definition successDurations (calls : list Call) : list Z :=
  omap (λ c, match c with Success d => Some d | Failure _ _ => None end) calls.

(** The error records of the failures among [calls], in the order
    recorded. *)
Definition failureRecords (calls : list Call) : list ErrorRecord :=
  omap (λ c, match c with
             | Success _ => None
             | Failure e now =>
                 Some {| err_message := message e; err_timestamp := now |}
             end) calls.

Definition rateLimited (r : ErrorRecord) : bool :=
  isRateLimitMessage (err_message r).

Definition isSuccess (c : Call) : bool :=
  match c with Success _ => true | Failure _ _ => false end.

(** [v] is the greatest of [l]. *)
Definition isMaximum (v : Z) (l : list Z) : Prop :=
  v ∈ l ∧ ∀ d, d ∈ l → d ≤ v.

(** ** Requests recorded from [try]/[catch] *)

(** [try { body } catch (error) { handler }] in an async function: the
    handler runs when the body throws or awaits a rejected promise. *)
Definition tryCatch {B} (body : LoadTestMetrics → Settled B * LoadTestMetrics)
  (handler : Reaction Error B) (metrics : LoadTestMetrics)
  : Settled B * LoadTestMetrics :=
  let '(result, metrics) := body metrics in
  match result with
  | Fulfilled v => (Fulfilled v, metrics)
  | Rejected e => handler e metrics
  end.

(** [const x = await p; rest x]: a rejected [p] is thrown at the [await]. *)
Definition await {A B} (p : Settled A) (rest : Reaction A B)
  (metrics : LoadTestMetrics) : Settled B * LoadTestMetrics :=
  match p with
  | Fulfilled v => rest v metrics
  | Rejected e => (Rejected e, metrics)
  end.

(** The body of the async callbacks of the burst tests:
    [try { await operation; recordSuccess(metrics, Date.now() - reqStart) }
     catch (error) { recordError(metrics, error) }]. *)
Definition attempt {R} (reqStart : Z) (operation : Settled R) (now : Z)
  (metrics : LoadTestMetrics) : Settled () * LoadTestMetrics :=
  tryCatch
    (await operation
       (λ _ m, (Fulfilled (), recordSuccess m (now - reqStart))))
    (λ error m, (Fulfilled (), recordError m error now))
    metrics.

Definition isFulfilled {A} (p : Settled A) : bool :=
  match p with Fulfilled _ => true | Rejected _ => false end.

(** A burst test up to its assertions: fresh metrics, every callback run as
    its operation completes, [await Promise.all(requests)], then the total
    duration. *)
Definition burst {R} (completions : list (Completion R))
  (startTime finishTime : Z) : LoadTestMetrics :=
  finish
    (foldl (λ m c, (attempt (c_reqStart c) (c_outcome c) (c_now c) m).2)
       createMetrics completions)
    startTime finishTime.

(** [expect(metrics.successfulRequests).toBe(n)] and
    [expect(metrics.rateLimitErrors).toBe(0)]. *)
Definition burstExpectations (n : nat) (metrics : LoadTestMetrics) : bool :=
  (successfulRequests metrics =? n)%nat && (rateLimitErrors metrics =? 0)%nat.

(** ** The swap script *)

(** Truthiness of [options.privateKey], a string or [null]. *)
Definition truthy (s : option string) : bool :=
  match s with
  | Some (String _ _) => true
  | Some EmptyString | None => false
  end.

(** One iteration of the swap loop up to its [catch]: a simulation in
    dry-run mode, else with a wallet a transaction sent and its receipt
    awaited, else nothing.  [wallet] is [walletClient && account]. *)
Definition swapIteration {R H Rc} (dryRun wallet : bool)
  (simulate : Settled R) (send : Settled H) (receipt : H → Settled Rc)
  (reqStart now : Z) (metrics : LoadTestMetrics)
  : Settled () * LoadTestMetrics :=
  tryCatch
    (λ m,
       if dryRun then
         await simulate
           (λ _ m, (Fulfilled (), recordSuccess m (now - reqStart))) m
       else if wallet then
         await send
           (λ hash m,
              await (receipt hash)
                (λ _ m, (Fulfilled (), recordSuccess m (now - reqStart))) m)
           m
       else (Fulfilled (), m))
    (λ error m, (Fulfilled (), recordError m error now))
    metrics.

(** [if (elapsed < intervalMs && i < options.count - 1)], then the sleep. *)
Definition swapPace (elapsed : Z) (intervalMs : number) (i : Z)
  (count : number) : option number :=
  if lt (of_Z elapsed) intervalMs && lt (of_Z i) (sub count (of_Z 1))
  then Some (sub intervalMs (of_Z elapsed))
  else None.

(** What one iteration of the swap loop meets: the outcomes of its calls
    and the clock at [reqStart], at the recording, and where [elapsed] is
    taken. *)
Record SwapStep (R H Rc : Type) : Type := mkSwapStep {
  s_simulate : Settled R;
  s_send : Settled H;
  s_receipt : H → Settled Rc;
  s_reqStart : Z;
  s_now : Z;
  s_end : Z
}.

Arguments mkSwapStep {R H Rc}.
Arguments s_simulate {R H Rc}.
Arguments s_send {R H Rc}.
Arguments s_receipt {R H Rc}.
Arguments s_reqStart {R H Rc}.
Arguments s_now {R H Rc}.
Arguments s_end {R H Rc}.

(** [for (let i = 0; i < options.count; i++)] from iteration [i] on; the
    list gives what each iteration meets.  The result is what each
    iteration did at its end, and the metrics. *)
Fixpoint swapLoop {R H Rc} (dryRun wallet : bool) (count intervalMs : number)
  (i : Z) (steps : list (SwapStep R H Rc)) (metrics : LoadTestMetrics)
  : list (option number) * LoadTestMetrics :=
  match steps with
  | [] => ([], metrics)
  | st :: steps' =>
      if lt (of_Z i) count then
        let metrics' :=
          (swapIteration dryRun wallet (s_simulate st) (s_send st)
             (s_receipt st) (s_reqStart st) (s_now st) metrics).2 in
        let action := swapPace (s_end st - s_reqStart st) intervalMs i count in
        let '(actions, final) :=
          swapLoop dryRun wallet count intervalMs (i + 1) steps' metrics' in
        (action :: actions, final)
      else ([], metrics)
  end.

(** The check before any client is made:
    [if (!options.privateKey && !options.dryRun) process.exit(1)]. *)
Definition refusesToRun (privateKey : option string) (dryRun : bool) : bool :=
  negb (truthy privateKey) && negb dryRun.

(** [walletClient && account] in the loop: both are set exactly when
    [options.privateKey] is truthy (and the script got that far). *)
Definition haveWallet (privateKey : option string) : bool := truthy privateKey.

(** The call a settled promise is recorded as. *)
Definition outcomeCall {A} (p : Settled A) (reqStart now : Z) : Call :=
  match p with
  | Fulfilled _ => Success (now - reqStart)
  | Rejected e => Failure e now
  end.

(** ** Command-line options *)

From Stdlib Require Import DecimalString DecimalNat.

(** [x + y]. *)
Definition add (x y : number) : number :=
  match x, y with
  | NaN, _ | _, NaN => NaN
  | Finite a, Finite b => Finite (Qred (a + b))
  | PosInf, NegInf | NegInf, PosInf => NaN
  | PosInf, _ | _, PosInf => PosInf
  | NegInf, _ | _, NegInf => NegInf
  end.

(** [s.split(sep)] for a separator of one character: the pieces between
    the occurrences of [sep], at least one piece. *)
Fixpoint splitOn (sep : ascii) (s : string) : list string :=
  match s with
  | EmptyString => [EmptyString]
  | String c s' =>
      if Ascii.eqb c sep then EmptyString :: splitOn sep s'
      else match splitOn sep s' with
           | piece :: pieces => String c piece :: pieces
           | [] => [String c EmptyString]
           end
  end.

(** [arg.split('=')[1]], [None] for [undefined]. *)
Definition argValue (arg : string) : option string :=
  splitOn "=" arg !! 1%nat.

(** The white space [parseInt] skips, as far as it is ASCII: tab, line
    feed, vertical tab, form feed, carriage return, space. *)
Definition isWhiteSpace (c : ascii) : bool :=
  let n := nat_of_ascii c in
  ((9 <=? n)%nat && (n <=? 13)%nat) || (n =? 32)%nat.

Fixpoint trimStart (s : string) : string :=
  match s with
  | EmptyString => EmptyString
  | String c s' => if isWhiteSpace c then trimStart s' else s
  end.

Definition digitValue (c : ascii) : option Z :=
  let n := nat_of_ascii c in
  if (48 <=? n)%nat && (n <=? 57)%nat then Some (Z.of_nat n - 48) else None.

(** The value of the longest run of decimal digits [s] starts with, added
    to the digits [acc] read so far; [None] when no digit has been read. *)
Fixpoint digits (s : string) (acc : option Z) : option Z :=
  match s with
  | EmptyString => acc
  | String c s' =>
      match digitValue c with
      | Some d => digits s' (Some (10 * default 0 acc + d))
      | None => acc
      end
  end.

(** The number a run of digits of value [v] is read as: [v] itself below
    2^53; above, [v] rounded to 53 significant bits, to the nearest and to
    the even one of two equally near; Infinity once that reaches 2^1024. *)
Definition nearestNumber (v : Z) : number :=
  if v <? 9007199254740992 then of_Z v
  else
    let e := Z.log2 v - 52 in
    let q := Z.shiftr v e in
    let r := v - Z.shiftl q e in
    let half := Z.shiftl 1 (e - 1) in
    let q' := if (half <? r) || ((r =? half) && Z.odd q) then q + 1 else q in
    if 1024 <=? Z.log2 (Z.shiftl q' e) then PosInf
    else of_Z (Z.shiftl q' e).

(** [parseInt(s, 10)]: leading white space, an optional sign, decimal
    digits up to the first other character; NaN without a digit.  The sign
    of a zero is not kept: "-0" is read as the one zero of [number]. *)
Definition parseInt (s : string) : number :=
  let s := trimStart s in
  let '(negative, s) :=
    match s with
    | String "-" s' => (true, s')
    | String "+" s' => (false, s')
    | _ => (false, s)
    end in
  match digits s None with
  | Some v => if negative then negate (nearestNumber v) else nearestNumber v
  | None => NaN
  end.

(** [parseInt(arg.split('=')[1], 10)]; [undefined] parses to NaN. *)
Definition parseIntArg (arg : string) : number :=
  match argValue arg with
  | Some v => parseInt v
  | None => NaN
  end.

Record Options : Type := mkOptions {
  rps : number;
  duration : number;
  network : string
}.

(** The body of the loop of [parseArgs].  After the test on the prefix
    [arg.split('=')[1]] is a string (see [argValue_after_prefix]). *)
Definition applyArg (options : Options) (arg : string) : Options :=
  if String.prefix "--rps=" arg then
    {| rps := parseIntArg arg;
       duration := duration options;
       network := network options |}
  else if String.prefix "--duration=" arg then
    {| rps := rps options;
       duration := parseIntArg arg;
       network := network options |}
  else if String.prefix "--network=" arg then
    {| rps := rps options;
       duration := duration options;
       network := default EmptyString (argValue arg) |}
  else options.

(** [parseArgs] of the quote and pool-read scripts, over the arguments
    after the script name; the scripts differ in the default rate. *)
Definition parseArgs (defaults : Options) (args : list string) : Options :=
  foldl applyArg defaults args.

Definition quoteDefaults : Options :=
  {| rps := of_Z 10; duration := of_Z 60; network := "mainnet" |}.

Definition poolReadDefaults : Options :=
  {| rps := of_Z 50; duration := of_Z 60; network := "mainnet" |}.



(** [const endTime = startTime + options.duration * 1000]. *)
Definition endTimeOf (startTime : Z) (duration : number) : number :=
  add (of_Z startTime) (mul duration (of_Z 1000)).

(** The sustained loop with the deadline as the script computes it, a
    number: [while (Date.now() < endTime)]. *)
Fixpoint sustainedRun (endTime intervalMs : number) (clock : list Z)
  : list (option number) :=
  match clock with
  | t :: reqStart :: t' :: clock' =>
      if lt (of_Z t) endTime
      then pace (t' - reqStart) intervalMs
             :: sustainedRun endTime intervalMs clock'
      else []
  | _ => []
  end.

(** [main] of the quote and pool-read scripts from the parsed options to
    the exit status: the loop, one request dispatched per iteration, all of
    them awaited ([completions] lists the dispatched requests as they
    complete), the total duration, the exit status. *)
Definition sustainedScript {R} (options : Options) (startTime finishTime : Z)
  (clock : list Z) (completions : list (Completion R))
  : list (option number) * LoadTestMetrics * Z :=
  let actions :=
    sustainedRun (endTimeOf startTime (duration options))
      (intervalMs (rps options)) clock in
  let settled := settleAll (take (length actions) completions) createMetrics in
  let metrics := finish settled.2 startTime finishTime in
  (actions, metrics, exitCode metrics).

(** The last of [args] that starts with [flag]. *)
Definition lastWith (flag : string) (args : list string) : option string :=
  last (List.filter (String.prefix flag) args).

(** ** Networks, chains and pools *)

Record Pool : Type := mkPool {
  pool_address : string;
  token0 : string;
  token1 : string;
  fee : Z
}.

Record NetworkConfig : Type := mkNetworkConfig {
  chainId : Z;
  chainName : string;
  rpc : string;
  blockExplorer : string;
  contracts : gmap string string;
  tokens : gmap string string;
  pools : gmap string Pool;
  poolInitCodeHash : string
}.

(** A chain as [src/utils/client.ts] describes it to viem. *)
Record Chain : Type := mkChain {
  chain_id : Z;
  chain_name : string;
  currencyDecimals : Z;
  currencyName : string;
  currencySymbol : string;
  rpcHttp : list string;
  explorerName : string;
  explorerUrl : string
}.

Section Addresses.

Local Open Scope string_scope.

Definition MEGAETH_MAINNET : NetworkConfig :=
  {| chainId := 4326;
     chainName := "MegaETH";
     rpc := "https://mainnet.megaeth.com/rpc";
     blockExplorer := "https://megaeth.blockscout.com/";
     contracts :=
       list_to_map
       [("WETH9", "0x4200000000000000000000000000000000000006");
        ("UniswapV3Factory", "0x68b34591f662508076927803c567Cc8006988a09");
        ("NonfungiblePositionManager", "0x2b781C57e6358f64864Ff8EC464a03Fdaf9974bA");
        ("SwapRouter02", "0xE5BbEF8De2DB447a7432A47EBa58924d94eE470e");
        ("UniversalRouter", "0xAAB1C664CeaD881AfBB58555e6A3a79523D3e4C0");
        ("QuoterV2", "0x1F1a8dC7E138C34b503Ca080962aC10B75384a27");
        ("Permit2", "0x000000000022D473030F116dDEE9F6B43aC78BA3");
        ("Multicall2", "0xf6f404ac6289ab8eB1caf244008b5F073d59385c");
        ("Multicall", "0xeeb4a1001354717598Af33f3585B66F9de7e7b27");
        ("Multicall3", "0xcA11bde05977b3631167028862bE2a173976CA11");
        ("TickLens", "0x9c22f028e0a1dc76EB895a1929DBc517c9D0593e");
        ("V3Migrator", "0xE2702742F78b84F2032C5A36082b199E2d62aAB0");
        ("UniswapV3Staker", "0x9F393A399321110Fb7D85aCc812b8e48A7c569aC")];
     tokens :=
       list_to_map
       [("WETH", "0x4200000000000000000000000000000000000006");
        ("DUCK", "0x021ee124cF23D302A7f725AE7a01B77A8ce9782B");
        ("FLUFFEY", "0xC5808cF8Be4e4CE012aA65bf6F60E24A3cC82071")];
     pools :=
       list_to_map
       [("DUCK-WETH-10000",
         {| pool_address := "0xab72F355eE690252A07D197B2A17E3a232419f39";
            token0 := "0x021ee124cF23D302A7f725AE7a01B77A8ce9782B";
            token1 := "0x4200000000000000000000000000000000000006";
            fee := 10000 |});
        ("FLUFFEY-WETH-3000",
         {| pool_address := "0x775c5B9A73f80889CCdd3da91F0bA61069E48E83";
            token0 := "0x4200000000000000000000000000000000000006";
            token1 := "0xC5808cF8Be4e4CE012aA65bf6F60E24A3cC82071";
            fee := 3000 |})];
     poolInitCodeHash :=
       "0x851d77a45b8b9a205fb9f44cb829cceba85282714d2603d601840640628a3da7" |}.

Definition MEGAETH_TESTNET : NetworkConfig :=
  {| chainId := 6343;
     chainName := "MegaETH Testnet";
     rpc := "https://timothy.megaeth.com/rpc";
     blockExplorer := "https://megaeth-testnet-v2.blockscout.com/";
     contracts :=
       list_to_map
       [("WETH9", "0x4200000000000000000000000000000000000006");
        ("UniswapV3Factory", "0x53447989580f541bc138d29A0FcCf72AfbBE1355");
        ("NonfungiblePositionManager", "0x367f9db1F974eA241ba046b77B87C58e2947d8dF");
        ("SwapRouter02", "0x8268DC930BA98759E916DEd4c9F367A844814023");
        ("UniversalRouter", "0x7E6c4Ada91e432efe5F01FbCb3492Bd3eb7ccD2E");
        ("QuoterV2", "0xfb230b93803F90238cB03f254452bA3a3b0Ec38d");
        ("Permit2", "0x000000000022D473030F116dDEE9F6B43aC78BA3");
        ("Multicall", "0xC2C69F04026E8a8D2C9F09dD0D7fc4b1105f7c89");
        ("TickLens", "0x6D65B4854944Fd93Cd568bb1B54EE22Fe9BF2faa")];
     tokens :=
       list_to_map
       [("WETH", "0x4200000000000000000000000000000000000006");
        ("USDC", "0x75139A9559c9CD1aD69B7E239C216151D2c81e6f");
        ("USDT", "0x8E1eb0b74A0aC37abaa0f75C598A681975896900")];
     pools :=
       list_to_map
       [("WETH-USDC-100",
         {| pool_address := "0xe8c130e4001Dc9526408F69976c762113f88E784";
            token0 := "0x4200000000000000000000000000000000000006";
            token1 := "0x75139A9559c9CD1aD69B7E239C216151D2c81e6f";
            fee := 100 |});
        ("WETH-USDC-3000",
         {| pool_address := "0x5d27D14c3f514969D083E1C8D7C9c0463D8EA795";
            token0 := "0x4200000000000000000000000000000000000006";
            token1 := "0x75139A9559c9CD1aD69B7E239C216151D2c81e6f";
            fee := 3000 |})];
     poolInitCodeHash :=
       "0x851d77a45b8b9a205fb9f44cb829cceba85282714d2603d601840640628a3da7" |}.

Definition megaethMainnet : Chain :=
  {| chain_id := 4326;
     chain_name := "MegaETH";
     currencyDecimals := 18;
     currencyName := "Ether";
     currencySymbol := "ETH";
     rpcHttp := ["https://mainnet.megaeth.com/rpc"];
     explorerName := "Blockscout";
     explorerUrl := "https://megaeth.blockscout.com" |}.

Definition megaethTestnet : Chain :=
  {| chain_id := 6343;
     chain_name := "MegaETH Testnet";
     currencyDecimals := 18;
     currencyName := "Ether";
     currencySymbol := "ETH";
     rpcHttp := ["https://timothy.megaeth.com/rpc"];
     explorerName := "Blockscout";
     explorerUrl := "https://megaeth-testnet-v2.blockscout.com" |}.

(** [getNetwork]: the configuration of a chain id, or the error thrown.
    [numberToString] is the text a template literal puts for a number. *)
Definition getNetwork (numberToString : Z → string) (chainId : Z)
  : Error + NetworkConfig :=
  if (chainId =? 4326)%Z then inr MEGAETH_MAINNET
  else if (chainId =? 6343)%Z then inr MEGAETH_TESTNET
  else inl (mkError ("Unknown chain ID: " ++ numberToString chainId)).

(** What [createClient] hands to viem: the chain, the URL of the HTTP
    transport and its retry count. *)
Record ClientConfig : Type := mkClientConfig {
  chain : Chain;
  transportUrl : string;
  retryCount : Z
}.

Definition createClient (network : NetworkConfig) : ClientConfig :=
  {| chain := if (chainId network =? 4326)%Z then megaethMainnet
              else megaethTestnet;
     transportUrl := rpc network;
     retryCount := 0 |}.

(** The choices [main] of the scripts makes from [options.network]. *)
Definition scriptNetwork (name : string) : NetworkConfig :=
  if String.eqb name "mainnet" then MEGAETH_MAINNET else MEGAETH_TESTNET.

Definition scriptChain (name : string) : Chain :=
  if String.eqb name "mainnet" then megaethMainnet else megaethTestnet.

Definition scriptClient (name : string) : ClientConfig :=
  {| chain := scriptChain name;
     transportUrl := rpc (scriptNetwork name);
     retryCount := 0 |}.

(** [None] is the falsy [pool] on which the scripts exit with status 1. *)
Definition scriptPool (name : string) : option Pool :=
  if String.eqb name "mainnet"
  then pools (scriptNetwork name) !! "DUCK-WETH-10000"
  else pools (scriptNetwork name) !! "WETH-USDC-3000".

End Addresses.

(** ** Helpers of the frontend-pattern tests *)

(** [a.slice(i, j)] for [i ≤ j]. *)
Definition slice {A} (i j : nat) (a : list A) : list A :=
  take (j - i) (drop i a).

(** [for (let i = 0; i < amounts.length; i += CHUNK_SIZE)
      chunks.push(amounts.slice(i, i + CHUNK_SIZE))]
    from index [i] on; [fuel] bounds the number of iterations. *)
Fixpoint chunkLoop {A} (fuel size i : nat) (amounts : list A)
  : list (list A) :=
  match fuel with
  | O => []
  | S fuel' =>
      if (i <? length amounts)%nat
      then slice i (i + size) amounts
             :: chunkLoop fuel' size (i + size) amounts
      else []
  end.

(** The loop from index 0; with a positive chunk size it ends within
    [amounts.length] iterations. *)
Definition chunksOf {A} (size : nat) (amounts : list A) : list (list A) :=
  chunkLoop (length amounts) size 0 amounts.

Definition CHUNK_SIZE : nat := 3.

(** [computePoolAddress], over the hashing and encoding functions it takes
    from viem. *)
Section PoolAddress.

Variable keccak256 : string → string.
Variable encodeAbiParameters : string → string → Z → string.
Variable concat : list string → string.
Variable getAddress : string → string.

(** [s.slice(-n)]: the last [n] characters. *)
Definition lastChars (n : nat) (s : string) : string :=
  String.substring (String.length s - n) n s.

Definition sortTokens (tokenA tokenB : string) : string * string :=
  if String.ltb (toLowerCase tokenA) (toLowerCase tokenB)
  then (tokenA, tokenB)
  else (tokenB, tokenA).

Definition computePoolAddress (factoryAddress tokenA tokenB : string)
  (fee : Z) (initCodeHash : string) : string :=
  let '(token0, token1) := sortTokens tokenA tokenB in
  let salt := keccak256 (encodeAbiParameters token0 token1 fee) in
  let create2Input :=
    concat ["0xff"%string; factoryAddress; salt; initCodeHash] in
  let hash := keccak256 create2Input in
  getAddress ("0x" ++ lastChars 40 hash)%string.

End PoolAddress.

(** ** Cycling through the read operations *)

(** [operations[requestIndex % operations.length]]. *)
Definition operationFor {A} (operations : list A) (requestIndex : nat)
  : option A :=
  operations !! (requestIndex mod length operations)%nat.

(** The positions in [operations] used by the first [n] requests. *)
Definition cycle (len n : nat) : list nat :=
  (λ requestIndex, requestIndex mod len)%nat <$> seq 0 n.

(** ** Options of the swap script *)

Record SwapOptions : Type := mkSwapOptions {
  privateKey : option string;
  tps : number;
  count : number;
  amount : string;
  swapNetwork : string;
  dryRun : bool
}.

Definition swapDefaults : SwapOptions :=
  {| privateKey := None;
     tps := of_Z 1;
     count := of_Z 10;
     amount := "0.001";
     swapNetwork := "mainnet";
     dryRun := false |}.

(** The body of the loop of the swap script's [parseArgs]. *)
Definition applySwapArg (options : SwapOptions) (arg : string) : SwapOptions :=
  if String.prefix "--private-key=" arg then
    {| privateKey := argValue arg; tps := tps options;
       count := count options; amount := amount options;
       swapNetwork := swapNetwork options; dryRun := dryRun options |}
  else if String.prefix "--tps=" arg then
    {| privateKey := privateKey options; tps := parseIntArg arg;
       count := count options; amount := amount options;
       swapNetwork := swapNetwork options; dryRun := dryRun options |}
  else if String.prefix "--count=" arg then
    {| privateKey := privateKey options; tps := tps options;
       count := parseIntArg arg; amount := amount options;
       swapNetwork := swapNetwork options; dryRun := dryRun options |}
  else if String.prefix "--amount=" arg then
    {| privateKey := privateKey options; tps := tps options;
       count := count options;
       amount := default EmptyString (argValue arg);
       swapNetwork := swapNetwork options; dryRun := dryRun options |}
  else if String.prefix "--network=" arg then
    {| privateKey := privateKey options; tps := tps options;
       count := count options; amount := amount options;
       swapNetwork := default EmptyString (argValue arg);
       dryRun := dryRun options |}
  else if String.eqb arg "--dry-run" then
    {| privateKey := privateKey options; tps := tps options;
       count := count options; amount := amount options;
       swapNetwork := swapNetwork options; dryRun := true |}
  else options.

Definition parseSwapArgs (args : list string) : SwapOptions :=
  foldl applySwapArg swapDefaults args.

(** * Properties *)

(** ** The accumulator *)

Lemma createMetrics_consistent : consistent createMetrics.
Proof. by repeat split. Qed.

Lemma recordSuccess_consistent m d :
  consistent m → consistent (recordSuccess m d).
Proof.
  intros (Htot & Hfail & Hdur & Herr).
  repeat split; simpl; rewrite ?length_app; simpl; lia.
Qed.

Lemma recordError_consistent m e now :
  consistent m → consistent (recordError m e now).
Proof.
  intros (Htot & Hfail & Hdur & Herr).
  repeat split; simpl; rewrite ?length_app; simpl;
    destruct (isRateLimitMessage (message e)); lia.
Qed.

Lemma record_consistent m c : consistent m → consistent (record m c).
Proof.
  destruct c; [apply recordSuccess_consistent | apply recordError_consistent].
Qed.

Lemma foldl_record_consistent calls m :
  consistent m → consistent (foldl record m calls).
Proof.
  revert m. induction calls as [|c calls IH]; intros m Hm; [done|].
  simpl. apply IH, record_consistent, Hm.
Qed.

(** C1.  The fresh metrics of [createMetrics], the metrics after every
    sequence of [recordSuccess] and [recordError] calls, and the metrics of
    a finished run satisfy
    totalRequests = successfulRequests + failedRequests,
    failedRequests = rateLimitErrors + otherErrors,
    requestDurations.length = successfulRequests and
    errors.length = failedRequests.  Every state a run passes through is
    [run] of the calls made so far. *)
Theorem metrics_invariant :
  consistent createMetrics
  ∧ (∀ calls : list Call,
       let m := run calls in
       totalRequests m = (successfulRequests m + failedRequests m)%nat
       ∧ failedRequests m = (rateLimitErrors m + otherErrors m)%nat
       ∧ length (requestDurations m) = successfulRequests m
       ∧ length (errors m) = failedRequests m)
  ∧ (∀ (calls : list Call) (startTime now : Z),
       consistent (finish (run calls) startTime now)).
Proof.
  assert (Hrun : ∀ calls, consistent (run calls)).
  { intros calls. apply foldl_record_consistent, createMetrics_consistent. }
  split; [apply createMetrics_consistent|]. split; [exact Hrun|].
  intros calls startTime now. exact (Hrun calls).
Qed.

(** ** The classifier *)

Lemma prefix_spec (t s : string) :
  String.prefix t s = true ↔ ∃ post, s = (t ++ post)%string.
Proof.
  revert s. induction t as [|c t IH]; intros [|c' s]; simpl.
  - split; [intros _; by exists EmptyString | done].
  - split; [intros _; by exists (String c' s) | done].
  - split; [done | intros [post Hpost]; discriminate].
  - destruct (ascii_dec c c') as [->|Hne].
    + rewrite IH. split; intros [post Hpost]; exists post.
      * by rewrite Hpost.
      * by injection Hpost.
    + split; [done | intros [post Hpost]; by injection Hpost].
Qed.

(** [includes] decides occurrence as a substring. *)
Lemma includes_spec (s t : string) :
  includes s t = true ↔ ∃ pre post, s = (pre ++ t ++ post)%string.
Proof.
  induction s as [|c s IH].
  - change (includes EmptyString t) with (String.prefix t EmptyString || false).
    rewrite orb_false_r, prefix_spec. split.
    + intros [post Hpost]. by exists EmptyString, post.
    + intros (pre & post & Heq). destruct pre; [by exists post|discriminate].
  - cbn [includes]. rewrite orb_true_iff, prefix_spec, IH. split.
    + intros [[post Hpost] | (pre & post & Heq)].
      * by exists EmptyString, post.
      * exists (String c pre), post. by rewrite Heq.
    + intros (pre & post & Heq). destruct pre as [|c' pre].
      * left. by exists post.
      * right. exists pre, post. by injection Heq.
Qed.

Lemma isRateLimitMessage_spec (msg : string) :
  isRateLimitMessage msg = true ↔ mentionsRateLimit msg.
Proof.
  unfold isRateLimitMessage, mentionsRateLimit, needles.
  rewrite !orb_true_iff, !includes_spec. split.
  - intros [[[H|H]|H]|H]; destruct H as (pre & post & Heq);
      eexists _, pre, post; (split; [|exact Heq]); set_solver.
  - intros (needle & pre & post & Hin & Heq).
    rewrite !elem_of_cons, elem_of_nil in Hin.
    destruct Hin as [->|[->|[->|[->|[]]]]]; eauto 10.
Qed.

Lemma lowerChar_upperChar (c : ascii) : lowerChar (upperChar c) = lowerChar c.
Proof. by destruct c as [[] [] [] [] [] [] [] []]. Qed.

Lemma lowerChar_idemp (c : ascii) : lowerChar (lowerChar c) = lowerChar c.
Proof. by destruct c as [[] [] [] [] [] [] [] []]. Qed.

Lemma toLowerCase_toUpperCase (s : string) :
  toLowerCase (toUpperCase s) = toLowerCase s.
Proof.
  induction s as [|c s IH]; [done|]. simpl. by rewrite lowerChar_upperChar, IH.
Qed.

Lemma toLowerCase_idemp (s : string) :
  toLowerCase (toLowerCase s) = toLowerCase s.
Proof.
  induction s as [|c s IH]; [done|]. simpl. by rewrite lowerChar_idemp, IH.
Qed.

(** C2.  [recordError] counts a message as a rate-limit error exactly when
    its lower-cased text contains one of "rate", "limit", "429", "too many",
    and as an other error exactly when it does not; "429 Too Many Requests"
    is a rate-limit error and "connection refused" an other error; messages
    that agree up to letter case are classified alike (so is a message and
    its upper-cased or lower-cased form). *)
Theorem recordError_classification :
  (∀ (m : LoadTestMetrics) (e : Error) (now : Z),
     (mentionsRateLimit (message e)
      ↔ rateLimitErrors (recordError m e now) = S (rateLimitErrors m)
        ∧ otherErrors (recordError m e now) = otherErrors m)
     ∧ (¬ mentionsRateLimit (message e)
        ↔ rateLimitErrors (recordError m e now) = rateLimitErrors m
          ∧ otherErrors (recordError m e now) = S (otherErrors m)))
  ∧ isRateLimitMessage "429 Too Many Requests" = true
  ∧ isRateLimitMessage "connection refused" = false
  ∧ (∀ a b : string,
       toLowerCase a = toLowerCase b →
       isRateLimitMessage a = isRateLimitMessage b)
  ∧ (∀ msg : string,
       isRateLimitMessage (toUpperCase msg) = isRateLimitMessage msg
       ∧ isRateLimitMessage (toLowerCase msg) = isRateLimitMessage msg).
Proof.
  split; [|split; [done|split; [done|split]]].
  - intros m e now. rewrite <- isRateLimitMessage_spec. simpl.
    destruct (isRateLimitMessage (message e)); split; split;
      try done; try (intros [? ?]; lia); try (intros ?; split; lia).
  - intros a b Hab. unfold isRateLimitMessage. by rewrite Hab.
  - intros msg. unfold isRateLimitMessage.
    by rewrite toLowerCase_toUpperCase, toLowerCase_idemp.
Qed.

(** C9.  [recordSuccess] changes only totalRequests, successfulRequests and
    requestDurations; [recordError] changes only totalRequests,
    failedRequests, exactly one of rateLimitErrors and otherErrors, and
    errors; every other field is left as it was.  The record appended by
    [recordError] carries the error's message as given, not lower-cased. *)
Theorem record_frame (m : LoadTestMetrics) :
  (∀ d : Z,
     let m' := recordSuccess m d in
     failedRequests m' = failedRequests m
     ∧ rateLimitErrors m' = rateLimitErrors m
     ∧ otherErrors m' = otherErrors m
     ∧ errors m' = errors m
     ∧ totalDurationMs m' = totalDurationMs m
     ∧ totalRequests m' = S (totalRequests m)
     ∧ successfulRequests m' = S (successfulRequests m)
     ∧ requestDurations m' = requestDurations m ++ [d])
  ∧ (∀ (e : Error) (now : Z),
       let m' := recordError m e now in
       successfulRequests m' = successfulRequests m
       ∧ requestDurations m' = requestDurations m
       ∧ totalDurationMs m' = totalDurationMs m
       ∧ totalRequests m' = S (totalRequests m)
       ∧ failedRequests m' = S (failedRequests m)
       ∧ (rateLimitErrors m' = S (rateLimitErrors m)
            ∧ otherErrors m' = otherErrors m
          ∨ rateLimitErrors m' = rateLimitErrors m
            ∧ otherErrors m' = S (otherErrors m))
       ∧ errors m'
         = errors m
           ++ [{| err_message := message e; err_timestamp := now |}]).
Proof.
  split; [by intros d|].
  intros e now. repeat split.
  simpl. destruct (isRateLimitMessage (message e)); [by left | by right].
Qed.

(** ** Exit status *)

(** C4.  With the final metrics of a completed run, the script ends with
    status 0 if rateLimitErrors = 0 and failedRequests = 0, and with status
    1 otherwise. *)
Theorem exit_contract (m : LoadTestMetrics) :
  exitCode m
  = if decide (rateLimitErrors m = 0%nat ∧ failedRequests m = 0%nat)
    then 0 else 1.
Proof.
  unfold exitCode.
  destruct (decide _) as [[-> ->]|Hne]; [done|].
  destruct (rateLimitErrors m) as [|r], (failedRequests m) as [|f]; try done.
  by destruct Hne.
Qed.

(** ** Dispatch *)

Lemma dispatch_record {R} (c : Completion R) (m : LoadTestMetrics) :
  dispatch (c_reqStart c) (c_outcome c) (c_now c) m
  = (Fulfilled (), record m (callOf c)).
Proof. unfold callOf. by destruct (c_outcome c). Qed.

Lemma record_totalRequests m c :
  totalRequests (record m c) = S (totalRequests m).
Proof. by destruct c. Qed.

Lemma foldl_record_totalRequests calls m :
  totalRequests (foldl record m calls)
  = (totalRequests m + length calls)%nat.
Proof.
  revert m. induction calls as [|c calls IH]; intros m; simpl; [lia|].
  rewrite IH, record_totalRequests. lia.
Qed.

Lemma settleAll_foldl {R} (cs : list (Completion R)) settled m :
  foldl
    (λ '(settled, m) c,
       let '(p, m') := dispatch (c_reqStart c) (c_outcome c) (c_now c) m in
       (settled ++ [p], m'))
    (settled, m) cs
  = (settled ++ replicate (length cs) (Fulfilled ()),
     foldl record m (callOf <$> cs)).
Proof.
  revert settled m. induction cs as [|c cs IH]; intros settled m; simpl.
  - by rewrite app_nil_r.
  - rewrite dispatch_record, IH. by rewrite <- app_assoc.
Qed.

(** C5.  Each dispatched operation records exactly one outcome: once it has
    settled, the metrics are those of a single [recordSuccess] call if it
    was fulfilled and of a single [recordError] call if it was rejected,
    totalRequests has grown by one, and the promise kept in pendingRequests
    is fulfilled, never rejected.  Over a whole run, awaiting all pending
    requests leaves every one of them fulfilled and the metrics those of
    one recorded call per dispatched operation. *)
Theorem dispatch_records_once {R : Type} :
  (∀ (reqStart now : Z) (operation : Settled R) (m : LoadTestMetrics),
     ∃ m',
       dispatch reqStart operation now m = (Fulfilled (), m')
       ∧ m' = match operation with
              | Fulfilled _ => recordSuccess m (now - reqStart)
              | Rejected e => recordError m e now
              end
       ∧ totalRequests m' = S (totalRequests m)
       ∧ (length (requestDurations m') + length (errors m')
          = S (length (requestDurations m) + length (errors m)))%nat)
  ∧ (∀ (cs : list (Completion R)) (m : LoadTestMetrics),
       settleAll cs m
       = (replicate (length cs) (Fulfilled ()), foldl record m (callOf <$> cs))
       ∧ totalRequests (settleAll cs m).2
         = (totalRequests m + length cs)%nat).
Proof.
  split.
  - intros reqStart now [v|e] m; eexists; (split; [reflexivity|]);
      (split; [reflexivity|]); simpl; rewrite length_app; simpl; split; lia.
  - intros cs m. unfold settleAll. rewrite settleAll_foldl. simpl.
    split; [done|]. by rewrite foldl_record_totalRequests, length_fmap.
Qed.

(** ** Pacing *)

Lemma Qltb_true (a b : Q) : Qltb a b = true ↔ (a < b)%Q.
Proof.
  unfold Qltb. rewrite negb_true_iff, <- not_true_iff_false, Qle_bool_iff.
  split; [apply Qnot_le_lt | apply Qlt_not_le].
Qed.

Lemma Qltb_false (a b : Q) : Qltb a b = false ↔ (b <= a)%Q.
Proof.
  unfold Qltb. by rewrite negb_false_iff, Qle_bool_iff.
Qed.

(** A difference taken under the guard [x < y] is positive. *)
Lemma sub_positive (x y : number) :
  lt x y = true →
  lt (of_Z 0) (sub y x) = true ∧ lt (sub y x) (of_Z 0) = false.
Proof.
  destruct x as [a| | |], y as [b| | |]; simpl; try done.
  rewrite Qltb_true. intros Hab.
  rewrite Qltb_true, Qltb_false, !Qred_correct.
  change (inject_Z 0) with 0%Q. split; lra.
Qed.

Lemma pace_Some elapsed interval d :
  pace elapsed interval = Some d →
  lt (of_Z elapsed) interval = true ∧ d = sub interval (of_Z elapsed).
Proof.
  unfold pace. destruct (lt (of_Z elapsed) interval); [|done].
  intros [= <-]. done.
Qed.

Lemma sustainedLoop_lookup endTime interval clock i a :
  sustainedLoop endTime interval clock !! i = Some a →
  ∃ reqStart t',
    clock !! (3 * i + 1)%nat = Some reqStart
    ∧ clock !! (3 * i + 2)%nat = Some t'
    ∧ a = pace (t' - reqStart) interval.
Proof.
  revert clock a. induction i as [|i IH]; intros clock a.
  - destruct clock as [|t [|s [|t' clock]]]; simpl; try done.
    destruct (t <? endTime); [|done]. intros [= <-]. by exists s, t'.
  - replace (3 * S i + 1)%nat with (S (S (S (3 * i + 1)))) by lia.
    replace (3 * S i + 2)%nat with (S (S (S (3 * i + 2)))) by lia.
    destruct clock as [|t [|s [|t' clock]]]; simpl; try done.
    destruct (t <? endTime); [|done]. apply IH.
Qed.

(** C6.  At the end of an iteration the loop suspends for
    interval - elapsed exactly when elapsed < interval, and otherwise goes
    on at once; a suspension is never negative.  What an iteration does
    depends on its own two clock readings only: time lost in earlier
    iterations is not made up for. *)
Theorem pacing_never_negative (interval : number) :
  (∀ elapsed : Z,
     pace elapsed interval
     = if lt (of_Z elapsed) interval
       then Some (sub interval (of_Z elapsed))
       else None)
  ∧ (∀ (elapsed : Z) (d : number),
       pace elapsed interval = Some d →
       lt (of_Z elapsed) interval = true
       ∧ d = sub interval (of_Z elapsed)
       ∧ lt d (of_Z 0) = false
       ∧ lt (of_Z 0) d = true)
  ∧ (∀ (endTime : Z) (clock : list Z) (i : nat) (d : number),
       sustainedLoop endTime interval clock !! i = Some (Some d) →
       lt d (of_Z 0) = false
       ∧ ∃ reqStart t',
           clock !! (3 * i + 1)%nat = Some reqStart
           ∧ clock !! (3 * i + 2)%nat = Some t'
           ∧ lt (of_Z (t' - reqStart)) interval = true
           ∧ d = sub interval (of_Z (t' - reqStart)))
  ∧ (∀ (endTime : Z) (clock : list Z) (i : nat),
       sustainedLoop endTime interval clock !! i = Some None →
       ∃ reqStart t',
         clock !! (3 * i + 1)%nat = Some reqStart
         ∧ clock !! (3 * i + 2)%nat = Some t'
         ∧ lt (of_Z (t' - reqStart)) interval = false).
Proof.
  split; [done|]. split; [|split].
  - intros elapsed d [Hlt ->]%pace_Some.
    destruct (sub_positive _ _ Hlt). done.
  - intros endTime clock i d (s & t' & H1 & H2 & Hp)%sustainedLoop_lookup.
    symmetry in Hp. apply pace_Some in Hp as [Hlt ->].
    destruct (sub_positive _ _ Hlt). split; [done|]. by exists s, t'.
  - intros endTime clock i (s & t' & H1 & H2 & Hp)%sustainedLoop_lookup.
    exists s, t'. split; [done|]. split; [done|].
    unfold pace in Hp. by destruct (lt (of_Z (t' - s)) interval).
Qed.

(** ** The sorted copy *)

Lemma insertBy_Permutation x l : insertBy compareFn x l ≡ₚ x :: l.
Proof.
  induction l as [|y l IH]; simpl; [done|].
  destruct (compareFn x y <=? 0); [done|].
  by rewrite IH, Permutation_swap.
Qed.

Lemma insertBy_HdRel a x l :
  a ≤ x → HdRel Z.le a l → HdRel Z.le a (insertBy compareFn x l).
Proof.
  intros Hax Hal. destruct l as [|y l]; simpl; [by constructor|].
  destruct (compareFn x y <=? 0); constructor; [done|].
  by inversion Hal.
Qed.

Lemma insertBy_Sorted x l :
  Sorted Z.le l → Sorted Z.le (insertBy compareFn x l).
Proof.
  induction 1 as [|y l Hl IH Hhd]; simpl.
  - by repeat constructor.
  - unfold compareFn at 1. destruct (Z.leb_spec (x - y) 0) as [Hle|Hgt].
    + constructor; [by constructor|]. constructor. lia.
    + constructor; [done|]. apply insertBy_HdRel; [lia|done].
Qed.

Lemma sortBy_Sorted l : Sorted Z.le (sortBy compareFn l).
Proof.
  induction l as [|x l IH]; simpl; [constructor|]. by apply insertBy_Sorted.
Qed.

Lemma sortBy_Permutation l : sortBy compareFn l ≡ₚ l.
Proof.
  induction l as [|x l IH]; simpl; [done|].
  by rewrite insertBy_Permutation, IH.
Qed.

(** Whatever algorithm the engine uses, an ascending rearrangement of the
    durations is this one. *)
Lemma sorted_copy_unique (l sorted : list Z) :
  Sorted Z.le sorted → sorted ≡ₚ l → sorted = sortBy compareFn l.
Proof.
  intros Hsorted Hperm. apply (Sorted_unique Z.le); [done| |].
  - apply sortBy_Sorted.
  - by rewrite Hperm, sortBy_Permutation.
Qed.

Lemma floorOfLength_Qfloor (n : nat) (pct : Z) :
  floorOfLength n pct
  = Z.to_nat (Qfloor (inject_Z (Z.of_nat n) * (pct # 100))).
Proof. unfold floorOfLength. simpl. by rewrite Z.mul_comm. Qed.

Lemma indexAgreesFrom_spec (n : nat) (len z : Z) :
  indexAgreesFrom n len = true → len ≤ z < len + Z.of_nat n →
  indexAgrees z = true.
Proof.
  revert len. induction n as [|n IH]; intros len; simpl; [lia|].
  intros [Hhere Hrest]%andb_true_iff Hz.
  destruct (decide (z = len)) as [->|Hne]; [done|].
  apply (IH (len + 1)); [done|lia].
Qed.

(** Up to 10000 durations the exact index is the one binary64 arithmetic
    gives. *)
Lemma floorOfLength_binary64 (len : nat) :
  Z.of_nat len < 10000 →
  floorOfLength len 50 = Z.to_nat (floorTimes (Z.of_nat len) half)
  ∧ floorOfLength len 95 = Z.to_nat (floorTimes (Z.of_nat len) p95th)
  ∧ floorOfLength len 99 = Z.to_nat (floorTimes (Z.of_nat len) p99th).
Proof.
  intros Hlen.
  assert (Hall : indexAgreesFrom (Z.to_nat 10000) 0 = true)
    by (vm_compute; reflexivity).
  assert (Hz : indexAgrees (Z.of_nat len) = true).
  { refine (indexAgreesFrom_spec _ _ _ Hall _). rewrite Z2Nat.id; lia. }
  unfold indexAgrees in Hz.
  apply andb_true_iff in Hz as [[H50 H95]%andb_true_iff H99].
  apply Z.eqb_eq in H50, H95, H99. unfold floorOfLength.
  rewrite H50, H95, H99. split; [reflexivity|split; reflexivity].
Qed.

(** For a non-empty array and a fraction below 1 the index is in range. *)
Lemma floorOfLength_lt (n : nat) (pct : Z) :
  0 ≤ pct < 100 → (0 < n)%nat → (floorOfLength n pct < n)%nat.
Proof.
  intros Hpct Hn. unfold floorOfLength.
  assert (Z.of_nat n * pct / 100 < Z.of_nat n).
  { apply Z.div_lt_upper_bound; nia. }
  assert (0 ≤ Z.of_nat n * pct / 100) by (apply Z.div_pos; nia).
  lia.
Qed.

Lemma percentile_nearestRank (sorted : list Z) (pct : Z) :
  nearestRank sorted (pct # 100) (percentile sorted pct).
Proof.
  unfold nearestRank, percentile, atOrZero.
  rewrite <- floorOfLength_Qfloor.
  set (i := floorOfLength (length sorted) pct). split.
  - intros [v Hv]%lookup_lt_is_Some_2. by rewrite Hv.
  - intros Hge%lookup_ge_None_2. by rewrite Hge.
Qed.

(** C3.  The reported p50, p95 and p99 are the elements at index
    floor(length × 0.50), floor(length × 0.95) and floor(length × 0.99) of
    the durations sorted ascending, and 0 where that index is out of bounds;
    with no durations all three are 0; for the durations 10, 20, 30, 40, 50
    the report has p50 = 30 and p95 = 50. *)
Theorem percentiles_nearest_rank (m : LoadTestMetrics) :
  let r := printMetricsSummary m in
  (∀ sorted : list Z,
     Sorted Z.le sorted → sorted ≡ₚ requestDurations m →
     nearestRank sorted (50 # 100) (p50 r)
     ∧ nearestRank sorted (95 # 100) (p95 r)
     ∧ nearestRank sorted (99 # 100) (p99 r))
  ∧ (requestDurations m = [] → p50 r = 0 ∧ p95 r = 0 ∧ p99 r = 0)
  ∧ (requestDurations m = [10; 20; 30; 40; 50] → p50 r = 30 ∧ p95 r = 50).
Proof.
  split; [|split].
  - intros sorted Hsorted Hperm.
    rewrite (sorted_copy_unique _ _ Hsorted Hperm).
    repeat split; apply percentile_nearestRank.
  - unfold printMetricsSummary. simpl. by intros ->.
  - unfold printMetricsSummary. simpl. by intros ->.
Qed.

(** ** The reporter reads, it does not write *)

(** C8.  Run on a metrics object whose durations array is in the store, the
    reporter yields the summary of the metrics' value and leaves every
    array that was in the store as it was, the durations array included
    (the array it sorts is a copy); run again, it yields the same summary,
    field for field. *)
Theorem reporter_idempotent (metrics : Metrics positive)
    (h : gmap positive (list Z)) (durations : list Z) :
  h !! requestDurations metrics = Some durations →
  ∃ h1 h2,
    Heap.printMetricsSummary metrics h
    = Some (printMetricsSummary (Heap.snapshot metrics durations), h1)
    ∧ Heap.printMetricsSummary metrics h1
      = Some (printMetricsSummary (Heap.snapshot metrics durations), h2)
    ∧ h1 !! requestDurations metrics = Some durations
    ∧ h2 !! requestDurations metrics = Some durations
    ∧ (∀ a, is_Some (h !! a) → h1 !! a = h !! a ∧ h2 !! a = h !! a).
Proof.
  intros Hd.
  assert (Hrun : ∀ h0 : gmap positive (list Z),
    h0 !! requestDurations metrics = Some durations →
    ∃ h', Heap.printMetricsSummary metrics h0
          = Some (printMetricsSummary (Heap.snapshot metrics durations), h')
          ∧ ∀ a, is_Some (h0 !! a) → h' !! a = h0 !! a).
  { intros h0 H0.
    set (b := fresh (dom h0)).
    assert (Hb : h0 !! b = None) by apply not_elem_of_dom, is_fresh.
    exists (<[b := sortBy compareFn durations]> (<[b := durations]> h0)).
    split.
    - unfold Heap.printMetricsSummary, mbind, Heap.prog_bind, Heap.elements,
        Heap.spread, Heap.sort, mret, Heap.prog_ret.
      rewrite H0. simpl. rewrite H0. fold b.
      rewrite lookup_insert_eq. simpl. by rewrite lookup_insert_eq.
    - intros a [xs Ha].
      assert (b ≠ a) by congruence.
      by rewrite !lookup_insert_ne. }
  destruct (Hrun h Hd) as (h1 & Hrun1 & Hframe1).
  assert (Hd1 : h1 !! requestDurations metrics = Some durations).
  { rewrite Hframe1; [done | by rewrite Hd]. }
  destruct (Hrun h1 Hd1) as (h2 & Hrun2 & Hframe2).
  exists h1, h2. repeat split; try done.
  - rewrite Hframe2; [done | by rewrite Hd1].
  - by apply Hframe1.
  - rewrite Hframe2, Hframe1; try done. rewrite Hframe1; done.
Qed.

(** ** The average *)

Lemma foldl_add_sumZ (l : list Z) (a : Z) : foldl Z.add a l = a + sumZ l.
Proof.
  revert a. induction l as [|x l IH]; intros a; simpl; [lia|].
  rewrite IH. lia.
Qed.

Lemma sumZ_Permutation (l l' : list Z) : l ≡ₚ l' → sumZ l = sumZ l'.
Proof. induction 1; simpl; lia. Qed.

Lemma average_Permutation (l l' : list Z) :
  l ≡ₚ l' → average l = average l'.
Proof.
  intros Hperm. unfold average.
  rewrite !foldl_add_sumZ, (sumZ_Permutation _ _ Hperm).
  by rewrite (Permutation_length Hperm).
Qed.

Lemma average_nonempty (l : list Z) :
  l ≠ [] →
  ∃ q, average l = Finite q
       ∧ (q * inject_Z (Z.of_nat (length l)) == inject_Z (sumZ l))%Q.
Proof.
  intros Hne. unfold average.
  assert (Hlen : (0 < length l)%nat) by (destruct l; [done | simpl; lia]).
  apply Nat.ltb_lt in Hlen as Hlt. rewrite Hlt, foldl_add_sumZ.
  unfold of_nat, of_Z, div.
  assert (Hnz : ¬ (inject_Z (Z.of_nat (length l)) == 0)%Q).
  { change 0%Q with (inject_Z 0). rewrite inject_Z_injective. lia. }
  destruct (Qeq_bool _ 0) eqn:Heq; [by apply Qeq_bool_eq in Heq|].
  eexists. split; [done|].
  rewrite Qred_correct, Z.add_0_l, Qmult_comm. by apply Qmult_div_r.
Qed.

Lemma sameTotals_refl m : sameTotals m m.
Proof. by repeat split. Qed.

Lemma sameTotals_trans m1 m2 m3 :
  sameTotals m1 m2 → sameTotals m2 m3 → sameTotals m1 m3.
Proof.
  intros (?&?&?&?&?&?&?) (?&?&?&?&?&?&?).
  repeat split; try congruence; by etrans.
Qed.

Lemma record_sameTotals m m' c :
  sameTotals m m' → sameTotals (record m c) (record m' c).
Proof.
  intros (?&?&?&?&?&Hd&He).
  destruct c as [d|e now]; repeat split; simpl;
    try destruct (isRateLimitMessage (message e));
    try congruence; by rewrite ?Hd, ?He.
Qed.

Lemma record_swap m c1 c2 :
  sameTotals (record (record m c1) c2) (record (record m c2) c1).
Proof.
  destruct c1 as [d1|e1 n1], c2 as [d2|e2 n2]; repeat split; simpl;
    try destruct (isRateLimitMessage (message e1));
    try destruct (isRateLimitMessage (message e2));
    try done; rewrite <- !app_assoc; simpl;
    apply Permutation_app_head, Permutation_swap.
Qed.

Lemma foldl_record_sameTotals calls m m' :
  sameTotals m m' → sameTotals (foldl record m calls) (foldl record m' calls).
Proof.
  revert m m'. induction calls as [|c calls IH]; intros m m' Hm; [done|].
  simpl. by apply IH, record_sameTotals.
Qed.

(** The totals of a run do not depend on the order in which the outcomes
    were recorded. *)
Lemma foldl_record_Permutation calls calls' m :
  calls ≡ₚ calls' →
  sameTotals (foldl record m calls) (foldl record m calls').
Proof.
  intros Hperm. revert m.
  induction Hperm as [|c l l' _ IH|c1 c2 l|l1 l2 l3 _ IH1 _ IH2]; intros m.
  - apply sameTotals_refl.
  - simpl. apply IH.
  - simpl. apply foldl_record_sameTotals, record_swap.
  - eapply sameTotals_trans; [apply IH1 | apply IH2].
Qed.




(** ** Divisions of the reporter *)

Lemma of_nat_zero (n : nat) :
  Qeq_bool (inject_Z (Z.of_nat n)) 0 = true ↔ n = 0%nat.
Proof.
  rewrite Qeq_bool_iff. change 0%Q with (inject_Z 0).
  rewrite inject_Z_injective. lia.
Qed.

Lemma pctOfTotal_finite (part total : nat) :
  isFinite (pctOfTotal part total) = negb (total =? 0)%nat.
Proof.
  unfold pctOfTotal, of_nat, of_Z. simpl.
  destruct (Qeq_bool (inject_Z (Z.of_nat total)) 0) eqn:Hz.
  - apply of_nat_zero in Hz as ->.
    by destruct part.
  - destruct total; [|done]. by rewrite (proj2 (of_nat_zero 0)) in Hz.
Qed.

Lemma requestsPerSecond_finite (total : nat) (durationMs : Z) :
  isFinite (requestsPerSecond total durationMs) = negb (durationMs =? 0).
Proof.
  unfold requestsPerSecond, of_nat, of_Z. simpl.
  destruct (Z.eqb_spec durationMs 0) as [->|Hne]; simpl.
  - by destruct total.
  - destruct (Qeq_bool _ 0) eqn:Hz; [|done].
    apply Qeq_bool_eq in Hz. rewrite Qred_correct in Hz.
    exfalso. apply Hne.
    apply inject_Z_injective. change (inject_Z 0) with 0%Q.
    rewrite <- (Qmult_div_r (inject_Z durationMs) (inject_Z 1000)) by done.
    rewrite Hz. ring.
Qed.

Lemma average_finite (l : list Z) : isFinite (average l) = true.
Proof.
  destruct l as [|x l]; [done|].
  by destruct (average_nonempty (x :: l)) as (q & -> & _).
Qed.

(** C10.  Of the reporter's quotients only the average is guarded against
    an empty input.  With totalRequests = 0 the two percentages are a
    quotient by zero, times 100, and so not finite; with
    totalDurationMs = 0 the throughput is a quotient by zero and not finite;
    with a non-zero divisor each is finite.  The average is finite for
    every input, and 0 for an empty requestDurations. *)
Theorem unguarded_divisions (m : LoadTestMetrics) :
  let r := printMetricsSummary m in
  (totalRequests m = 0%nat →
     sum_successPct r
     = mul (div (of_nat (successfulRequests m)) (of_Z 0)) (of_Z 100)
     ∧ sum_failurePct r
       = mul (div (of_nat (failedRequests m)) (of_Z 0)) (of_Z 100)
     ∧ isFinite (sum_successPct r) = false
     ∧ isFinite (sum_failurePct r) = false)
  ∧ (totalDurationMs m = 0 →
       throughput r = div (of_nat (totalRequests m)) (of_Z 0)
       ∧ isFinite (throughput r) = false)
  ∧ (totalRequests m ≠ 0%nat →
       isFinite (sum_successPct r) = true
       ∧ isFinite (sum_failurePct r) = true)
  ∧ (totalDurationMs m ≠ 0 → isFinite (throughput r) = true)
  ∧ isFinite (avgDuration r) = true
  ∧ (requestDurations m = [] → avgDuration r = of_Z 0).
Proof.
  unfold printMetricsSummary. simpl.
  split; [|split; [|split; [|split; [|split]]]].
  - intros Hzero. unfold pctOfTotal at 1 2.
    by rewrite !pctOfTotal_finite, Hzero.
  - intros Hzero. unfold requestsPerSecond at 1.
    by rewrite requestsPerSecond_finite, Hzero.
  - intros Hpos. rewrite !pctOfTotal_finite.
    by destruct (totalRequests m).
  - intros Hpos. rewrite requestsPerSecond_finite.
    by destruct (Z.eqb_spec (totalDurationMs m) 0).
  - apply average_finite.
  - by intros ->.
Qed.

(** * Instances *)

(** The classifier on "429 Too Many Requests", and on two spellings of one
    message. *)
Lemma recordError_classification_witness :
  mentionsRateLimit "429 Too Many Requests"
  ∧ toLowerCase "Rate Limit" = toLowerCase "rATE lIMIT"
  ∧ rateLimitErrors
      (recordError createMetrics (mkError "429 Too Many Requests") 7) = 1%nat
  ∧ otherErrors
      (recordError createMetrics (mkError "429 Too Many Requests") 7) = 0%nat
  ∧ isRateLimitMessage "Rate Limit" = isRateLimitMessage "rATE lIMIT".
Proof.
  assert (Hmentions : mentionsRateLimit "429 Too Many Requests").
  { exists "429"%string, ""%string, " too many requests"%string.
    split; [|reflexivity]. apply list_elem_of_In. simpl. tauto. }
  assert (Hcase : toLowerCase "Rate Limit" = toLowerCase "rATE lIMIT")
    by reflexivity.
  destruct recordError_classification as (Hrec & _ & _ & Hfold & _).
  destruct (Hrec createMetrics (mkError "429 Too Many Requests") 7)
    as [[Hyes _] _].
  destruct (Hyes Hmentions) as [Hrate Hother].
  split; [exact Hmentions|]. split; [exact Hcase|].
  split; [exact Hrate|]. split; [exact Hother|].
  exact (Hfold _ _ Hcase).
Defined.

(** The percentiles of five durations recorded out of order, and of none. *)
Lemma percentiles_nearest_rank_witness :
  let m : LoadTestMetrics := mkMetrics 5 5 0 0 0 120 [50; 10; 40; 20; 30] [] in
  let sorted := [10; 20; 30; 40; 50] in
  Sorted Z.le sorted
  ∧ sorted ≡ₚ requestDurations m
  ∧ nearestRank sorted (50 # 100) 30
  ∧ nearestRank sorted (95 # 100) 50
  ∧ nearestRank sorted (99 # 100) 50
  ∧ requestDurations createMetrics = []
  ∧ p50 (printMetricsSummary createMetrics) = 0
  ∧ p95 (printMetricsSummary createMetrics) = 0
  ∧ p99 (printMetricsSummary createMetrics) = 0.
Proof.
  intros m sorted.
  assert (Hsorted : Sorted Z.le sorted).
  { change sorted with (sortBy compareFn (requestDurations m)).
    apply sortBy_Sorted. }
  assert (Hperm : sorted ≡ₚ requestDurations m).
  { change sorted with (sortBy compareFn (requestDurations m)).
    apply sortBy_Permutation. }
  destruct (percentiles_nearest_rank m) as (Hrank & _ & _).
  destruct (percentiles_nearest_rank createMetrics) as (_ & Hempty & _).
  split; [exact Hsorted|]. split; [exact Hperm|].
  destruct (Hrank sorted Hsorted Hperm) as (H50 & H95 & H99).
  split; [exact H50|]. split; [exact H95|]. split; [exact H99|].
  split; [reflexivity|]. exact (Hempty eq_refl).
Defined.

(** At 10 requests per second the interval is 100 ms: 30 ms elapsed
    suspends for 70 ms, 130 ms elapsed does not suspend. *)
Lemma pacing_never_negative_witness :
  let interval := intervalMs (of_Z 10) in
  let clock := [0; 0; 30; 100; 100; 230] in
  pace 30 interval = Some (of_Z 70)
  ∧ lt (of_Z 70) (of_Z 0) = false
  ∧ sustainedLoop 1000 interval clock !! 0%nat = Some (Some (of_Z 70))
  ∧ sustainedLoop 1000 interval clock !! 1%nat = Some None
  ∧ lt (of_Z (230 - 100)) interval = false.
Proof.
  intros interval clock.
  assert (H1 : pace 30 interval = Some (of_Z 70)) by reflexivity.
  assert (H2 : sustainedLoop 1000 interval clock !! 0%nat
               = Some (Some (of_Z 70))) by reflexivity.
  assert (H3 : sustainedLoop 1000 interval clock !! 1%nat = Some None)
    by reflexivity.
  destruct (pacing_never_negative interval) as (_ & Hpace & Hloop & Hskip).
  destruct (Hpace 30 (of_Z 70) H1) as (_ & _ & Hneg & _).
  destruct (Hloop 1000 clock 0%nat (of_Z 70) H2) as [_ _].
  destruct (Hskip 1000 clock 1%nat H3) as (s & t' & Hs & Ht' & Hlt).
  injection Hs as <-. injection Ht' as <-.
  split; [exact H1|]. split; [exact Hneg|]. split; [exact H2|].
  split; [exact H3|]. exact Hlt.
Defined.


(** A store with one unsorted durations array. *)
Lemma reporter_idempotent_witness :
  let metrics : Metrics positive := mkMetrics 3 3 0 0 0 100 1%positive [] in
  let h : gmap positive (list Z) := {[ 1%positive := [30; 10; 20] ]} in
  h !! requestDurations metrics = Some [30; 10; 20]
  ∧ ∃ h1 h2,
      Heap.printMetricsSummary metrics h
      = Some (printMetricsSummary (Heap.snapshot metrics [30; 10; 20]), h1)
      ∧ Heap.printMetricsSummary metrics h1
        = Some (printMetricsSummary (Heap.snapshot metrics [30; 10; 20]), h2)
      ∧ h1 !! requestDurations metrics = Some [30; 10; 20]
      ∧ h2 !! requestDurations metrics = Some [30; 10; 20]
      ∧ (∀ a, is_Some (h !! a) → h1 !! a = h !! a ∧ h2 !! a = h !! a).
Proof.
  intros metrics h.
  assert (Hd : h !! requestDurations metrics = Some [30; 10; 20])
    by reflexivity.
  split; [exact Hd|].
  exact (reporter_idempotent metrics h [30; 10; 20] Hd).
Defined.

(** Fresh metrics, where all three divisors are zero, and the metrics of
    one request that took 5 ms of a 10 ms run. *)
Lemma unguarded_divisions_witness :
  let m : LoadTestMetrics := mkMetrics 1 1 0 0 0 10 [5] [] in
  totalRequests createMetrics = 0%nat
  ∧ totalDurationMs createMetrics = 0
  ∧ requestDurations createMetrics = []
  ∧ totalRequests m ≠ 0%nat
  ∧ totalDurationMs m ≠ 0
  ∧ isFinite (sum_successPct (printMetricsSummary createMetrics)) = false
  ∧ isFinite (sum_failurePct (printMetricsSummary createMetrics)) = false
  ∧ isFinite (throughput (printMetricsSummary createMetrics)) = false
  ∧ avgDuration (printMetricsSummary createMetrics) = of_Z 0
  ∧ isFinite (sum_successPct (printMetricsSummary m)) = true
  ∧ isFinite (throughput (printMetricsSummary m)) = true.
Proof.
  intros m.
  assert (Hreq : totalRequests m ≠ 0%nat) by discriminate.
  assert (Hdur : totalDurationMs m ≠ 0) by discriminate.
  destruct (unguarded_divisions createMetrics)
    as (Hpct & Hthr & _ & _ & _ & Havg).
  destruct (unguarded_divisions m) as (_ & _ & Hpct' & Hthr' & _ & _).
  destruct (Hpct eq_refl) as (_ & _ & Hs & Hf).
  destruct (Hthr eq_refl) as [_ Ht].
  destruct (Hpct' Hreq) as [Hs' _].
  split; [reflexivity|]. split; [reflexivity|]. split; [reflexivity|].
  split; [exact Hreq|]. split; [exact Hdur|].
  split; [exact Hs|]. split; [exact Hf|]. split; [exact Ht|].
  split; [exact (Havg eq_refl)|]. split; [exact Hs'|]. exact (Hthr' Hdur).
Defined.

(** * Further properties *)

(** ** What a run accumulates *)

Lemma foldl_record_fields (calls : list Call) (m : LoadTestMetrics) :
  let m' := foldl record m calls in
  totalRequests m' = (totalRequests m + length calls)%nat
  ∧ successfulRequests m'
    = (successfulRequests m + length (successDurations calls))%nat
  ∧ failedRequests m' = (failedRequests m + length (failureRecords calls))%nat
  ∧ rateLimitErrors m'
    = (rateLimitErrors m
       + length (List.filter rateLimited (failureRecords calls)))%nat
  ∧ otherErrors m'
    = (otherErrors m
       + length (List.filter (λ r, negb (rateLimited r))
                   (failureRecords calls)))%nat
  ∧ totalDurationMs m' = totalDurationMs m
  ∧ requestDurations m' = requestDurations m ++ successDurations calls
  ∧ errors m' = errors m ++ failureRecords calls.
Proof.
  revert m. induction calls as [|c calls IH]; intros m; simpl.
  - rewrite !app_nil_r. repeat split; lia.
  - destruct (IH (record m c)) as (Ht & Hs & Hf & Hr & Ho & Hd & Hds & Hes).
    rewrite Ht, Hs, Hf, Hr, Ho, Hd, Hds, Hes. clear.
    destruct c as [d|e now]; simpl.
    + rewrite <- app_assoc. repeat split; lia.
    + rewrite <- app_assoc. unfold rateLimited. simpl.
      destruct (isRateLimitMessage (message e)); simpl; repeat split; lia.
Qed.

(** X1.  After any sequence of calls on fresh metrics, requestDurations is
    exactly the durations of the successes in the order they were recorded,
    errors is exactly the records of the failures in that order (message
    and timestamp as given), totalRequests is the number of calls,
    rateLimitErrors and otherErrors count the failures whose message does
    and does not classify as rate-limit, and totalDurationMs is still 0. *)
Theorem run_projection (calls : list Call) :
  let m := run calls in
  requestDurations m = successDurations calls
  ∧ errors m = failureRecords calls
  ∧ totalRequests m = length calls
  ∧ successfulRequests m = length (successDurations calls)
  ∧ failedRequests m = length (failureRecords calls)
  ∧ rateLimitErrors m = length (List.filter rateLimited (failureRecords calls))
  ∧ otherErrors m
    = length (List.filter (λ r, negb (rateLimited r)) (failureRecords calls))
  ∧ totalDurationMs m = 0.
Proof.
  destruct (foldl_record_fields calls createMetrics)
    as (Ht & Hs & Hf & Hr & Ho & Hd & Hds & Hes).
  unfold run. simpl in *. by repeat split.
Qed.

(** X2.  Recording is append-only: whatever is recorded after a point of a
    run, the durations and error records present at that point remain, in
    place, at the front of the two sequences, and no counter decreases. *)
Theorem run_append_only (calls more : list Call) :
  let m := run calls in
  let m' := run (calls ++ more) in
  requestDurations m `prefix_of` requestDurations m'
  ∧ errors m `prefix_of` errors m'
  ∧ (totalRequests m ≤ totalRequests m')%nat
  ∧ (successfulRequests m ≤ successfulRequests m')%nat
  ∧ (failedRequests m ≤ failedRequests m')%nat
  ∧ (rateLimitErrors m ≤ rateLimitErrors m')%nat
  ∧ (otherErrors m ≤ otherErrors m')%nat.
Proof.
  intros m m'. unfold m', run. rewrite foldl_app. fold (run calls). fold m.
  destruct (foldl_record_fields more m)
    as (Ht & Hs & Hf & Hr & Ho & Hd & Hds & Hes).
  rewrite Ht, Hs, Hf, Hr, Ho, Hds, Hes.
  repeat split; try lia; by eexists.
Qed.

(** ** Exit status of a run *)

Lemma failureRecords_nil (calls : list Call) :
  failureRecords calls = [] ↔ Forall (λ c, isSuccess c = true) calls.
Proof.
  induction calls as [|c calls IH]; simpl.
  - split; [constructor | done].
  - rewrite Forall_cons. destruct c as [d|e now]; simpl.
    + unfold failureRecords in IH. rewrite IH. tauto.
    + split; [done | by intros [? _]].
Qed.

Lemma Exists_failure (calls : list Call) :
  Exists (λ c, isSuccess c = false) calls
  ↔ ¬ Forall (λ c, isSuccess c = true) calls.
Proof.
  induction calls as [|c calls IH].
  - rewrite Exists_nil. split; [done | intros H; by destruct H].
  - rewrite Exists_cons, Forall_cons, IH.
    destruct (isSuccess c); split; try tauto.
    + intros [?|?]; [done | tauto].
    + intros _ [? _]. done.
Qed.

Lemma forallb_isSuccess (calls : list Call) :
  forallb isSuccess calls = true ↔ Forall (λ c, isSuccess c = true) calls.
Proof.
  induction calls as [|c calls IH]; simpl.
  - split; [constructor | done].
  - by rewrite andb_true_iff, Forall_cons, IH.
Qed.

(** X3.  A script run ends with status 0 when every recorded outcome was a
    success and with status 1 as soon as one was a failure.  The guard on
    rateLimitErrors never decides alone: rate-limit errors are failures, so
    whenever it fires the guard on failedRequests would fire too. *)
Theorem exit_zero_iff_all_succeeded (calls : list Call) (startTime now : Z) :
  let m := finish (run calls) startTime now in
  exitCode m = (if forallb isSuccess calls then 0 else 1)
  ∧ (rateLimitErrors m ≤ failedRequests m)%nat.
Proof.
  intros m.
  destruct (foldl_record_fields calls createMetrics)
    as (_ & _ & Hf & Hr & _).
  fold (run calls) in Hf, Hr. simpl in Hf, Hr.
  assert (Hle : (rateLimitErrors m ≤ failedRequests m)%nat).
  { unfold m. simpl. rewrite Hf, Hr. apply List.filter_length_le. }
  split; [|exact Hle].
  assert (Hzero : failedRequests m = 0%nat
                  ↔ Forall (λ c, isSuccess c = true) calls).
  { unfold m. simpl. rewrite Hf, <- failureRecords_nil.
    by destruct (failureRecords calls). }
  destruct (forallb isSuccess calls) eqn:Hall.
  - assert (Hf0 : failedRequests m = 0%nat)
      by by apply Hzero, forallb_isSuccess.
    unfold exitCode. replace (rateLimitErrors m) with 0%nat by lia.
    by rewrite Hf0.
  - assert (Hf0 : failedRequests m ≠ 0%nat).
    { intros Hz%Hzero%forallb_isSuccess. by rewrite Hall in Hz. }
    unfold exitCode.
    destruct (rateLimitErrors m), (failedRequests m); done.
Qed.

(** ** The classifier under added text *)

Lemma string_app_assoc (a b c : string) :
  ((a ++ b) ++ c = a ++ (b ++ c))%string.
Proof.
  induction a as [|x a IH]; [done|]. exact (f_equal (String x) IH).
Qed.

Lemma toLowerCase_app (a b : string) :
  toLowerCase (a ++ b) = (toLowerCase a ++ toLowerCase b)%string.
Proof.
  induction a as [|x a IH]; [done|].
  exact (f_equal (String (lowerChar x)) IH).
Qed.

Lemma includes_app (s t pre post : string) :
  includes s t = true → includes (pre ++ s ++ post) t = true.
Proof.
  rewrite !includes_spec. intros (p & q & ->).
  exists (pre ++ p)%string, (q ++ post)%string.
  by rewrite !string_app_assoc.
Qed.

(** X4.  A message that classifies as rate-limit still does so with any
    text put before or after it: wrapping an error message in context never
    turns a rate-limit error into an other error. *)
Theorem classification_survives_context (msg pre post : string) :
  isRateLimitMessage msg = true →
  isRateLimitMessage (pre ++ msg ++ post) = true.
Proof.
  unfold isRateLimitMessage. rewrite !toLowerCase_app, !orb_true_iff.
  intros [[[H|H]|H]|H]; eauto using includes_app.
Qed.

Lemma classification_survives_context_witness :
  isRateLimitMessage "Rate limit exceeded" = true
  ∧ isRateLimitMessage
      ("HTTP request failed: " ++ "Rate limit exceeded" ++ " (retry later)")
    = true.
Proof.
  assert (H : isRateLimitMessage "Rate limit exceeded" = true) by reflexivity.
  split; [exact H|].
  exact (classification_survives_context _ "HTTP request failed: "
           " (retry later)" H).
Defined.

(** ** The two percentages *)

Lemma pctOfTotal_value (part total : nat) :
  total ≠ 0%nat →
  ∃ q, pctOfTotal part total = Finite q
       ∧ (q == inject_Z 100 * inject_Z (Z.of_nat part)
               / inject_Z (Z.of_nat total))%Q.
Proof.
  intros Hne. unfold pctOfTotal, of_nat, of_Z, div.
  destruct (Qeq_bool _ 0) eqn:Hz.
  { apply of_nat_zero in Hz. done. }
  simpl. eexists. split; [reflexivity|].
  rewrite !Qred_correct. unfold Qdiv. ring.
Qed.

(** X5.  When totalRequests = successfulRequests + failedRequests and at
    least one request was made, the success and failure percentages of the
    summary are finite and each lies between 0 and 100; a run without a
    failure reports 100 and 0, a run without a success 0 and 100. *)
Theorem rates_within_range (m : LoadTestMetrics) :
  totalRequests m = (successfulRequests m + failedRequests m)%nat →
  totalRequests m ≠ 0%nat →
  ∃ s f : Q,
    sum_successPct (printMetricsSummary m) = Finite s
    ∧ sum_failurePct (printMetricsSummary m) = Finite f
    ∧ (0 <= s)%Q ∧ (s <= 100)%Q ∧ (0 <= f)%Q ∧ (f <= 100)%Q
    ∧ (failedRequests m = 0%nat → (s == 100)%Q ∧ (f == 0)%Q)
    ∧ (successfulRequests m = 0%nat → (s == 0)%Q ∧ (f == 100)%Q).
Proof.
  intros Hsum Hne. unfold printMetricsSummary. simpl.
  destruct (pctOfTotal_value (successfulRequests m) _ Hne) as (s & -> & Hs).
  destruct (pctOfTotal_value (failedRequests m) _ Hne) as (f & -> & Hf).
  exists s, f. split; [done|]. split; [done|].
  assert (Hpos : (0 < inject_Z (Z.of_nat (totalRequests m)))%Q).
  { change 0%Q with (inject_Z 0). rewrite <- Zlt_Qlt. lia. }
  assert (Hnn : ∀ n : nat,
            (0 <= inject_Z 100 * inject_Z (Z.of_nat n)
                  / inject_Z (Z.of_nat (totalRequests m)))%Q).
  { intros n. apply Qle_shift_div_l; [done|].
    rewrite Qmult_0_l, <- inject_Z_mult. change 0%Q with (inject_Z 0).
    rewrite <- Zle_Qle. lia. }
  assert (Hle : ∀ n : nat,
            (n ≤ totalRequests m)%nat →
            (inject_Z 100 * inject_Z (Z.of_nat n)
             / inject_Z (Z.of_nat (totalRequests m)) <= 100)%Q).
  { intros n Hn. apply Qle_shift_div_r; [done|].
    change 100%Q with (inject_Z 100). rewrite <- !inject_Z_mult, <- Zle_Qle.
    lia. }
  assert (Hall : (inject_Z 100 * inject_Z (Z.of_nat (totalRequests m))
                  / inject_Z (Z.of_nat (totalRequests m)) == 100)%Q).
  { change (inject_Z 100) with 100%Q. field. lra. }
  assert (Hnone : (inject_Z 100 * inject_Z (Z.of_nat 0)
                   / inject_Z (Z.of_nat (totalRequests m)) == 0)%Q).
  { change (inject_Z (Z.of_nat 0)) with 0%Q. field. lra. }
  split; [rewrite Hs; apply Hnn|]. split; [rewrite Hs; apply Hle; lia|].
  split; [rewrite Hf; apply Hnn|]. split; [rewrite Hf; apply Hle; lia|].
  split.
  - intros Hf0. rewrite Hs, Hf, Hf0.
    replace (successfulRequests m) with (totalRequests m) by lia. done.
  - intros Hs0. rewrite Hs, Hf, Hs0.
    replace (failedRequests m) with (totalRequests m) by lia. done.
Qed.

Lemma rates_within_range_witness :
  let m : LoadTestMetrics := mkMetrics 6 6 0 0 0 400 [5; 5; 5; 5; 5; 5] [] in
  totalRequests m = (successfulRequests m + failedRequests m)%nat
  ∧ totalRequests m ≠ 0%nat
  ∧ failedRequests m = 0%nat
  ∧ ∃ s f : Q,
      sum_successPct (printMetricsSummary m) = Finite s
      ∧ sum_failurePct (printMetricsSummary m) = Finite f
      ∧ (s == 100)%Q ∧ (f == 0)%Q.
Proof.
  intros m.
  assert (Hsum : totalRequests m
                 = (successfulRequests m + failedRequests m)%nat)
    by reflexivity.
  assert (Hne : totalRequests m ≠ 0%nat) by discriminate.
  assert (Hnone : failedRequests m = 0%nat) by reflexivity.
  split; [exact Hsum|]. split; [exact Hne|]. split; [exact Hnone|].
  destruct (rates_within_range m Hsum Hne)
    as (s & f & Hs & Hf & _ & _ & _ & _ & Hall & _).
  exists s, f. split; [exact Hs|]. split; [exact Hf|]. exact (Hall Hnone).
Defined.

(** ** Order and extremes of the percentiles *)

Lemma Sorted_lookup_le (l : list Z) (i j : nat) (x y : Z) :
  Sorted Z.le l → l !! i = Some x → l !! j = Some y → (i ≤ j)%nat → x ≤ y.
Proof.
  intros Hsorted%Sorted_StronglySorted; [|apply _].
  revert i j. induction Hsorted as [|a l Hl IH Hall]; intros i j Hi Hj Hij.
  - done.
  - destruct i as [|i], j as [|j]; simpl in *; try lia.
    + injection Hi as <-. injection Hj as <-. lia.
    + injection Hi as <-. rewrite Forall_forall in Hall.
      apply Hall, list_elem_of_lookup. by exists j.
    + apply (IH i j); [done|done|lia].
Qed.

Lemma floorOfLength_mono (n : nat) (pct pct' : Z) :
  0 ≤ pct ≤ pct' → (floorOfLength n pct ≤ floorOfLength n pct')%nat.
Proof.
  intros Hpct. unfold floorOfLength. apply Z2Nat.inj_le.
  - apply Z.div_pos; nia.
  - apply Z.div_pos; nia.
  - apply Z.div_le_mono; nia.
Qed.

Lemma floorOfLength_last (n : nat) (pct : Z) :
  0 ≤ pct < 100 → (0 < n)%nat → Z.of_nat n * (100 - pct) ≤ 100 →
  floorOfLength n pct = (n - 1)%nat.
Proof.
  intros Hpct Hn Hsmall. unfold floorOfLength.
  assert (Z.of_nat n * pct / 100 = Z.of_nat n - 1); [|lia].
  symmetry. apply Z.div_unique with (Z.of_nat n * pct - 100 * (Z.of_nat n - 1)).
  - left. nia.
  - lia.
Qed.

Lemma percentile_lookup (l : list Z) (pct : Z) :
  0 ≤ pct < 100 → l ≠ [] →
  l !! floorOfLength (length l) pct = Some (percentile l pct).
Proof.
  intros Hpct Hne. unfold percentile, atOrZero.
  assert (Hlen : (0 < length l)%nat) by (destruct l; [done | simpl; lia]).
  destruct (lookup_lt_is_Some_2 l _ (floorOfLength_lt _ _ Hpct Hlen))
    as [v Hv].
  by rewrite Hv.
Qed.

Lemma sortBy_nonempty (l : list Z) : l ≠ [] → sortBy compareFn l ≠ [].
Proof.
  intros Hne Hnil. apply Hne, Permutation_nil_r.
  by rewrite <- Hnil, sortBy_Permutation.
Qed.

(** X6.  With at least one duration recorded, each of p50, p95 and p99 is
    one of the recorded durations, and p50 ≤ p95 ≤ p99. *)
Theorem percentiles_ordered (m : LoadTestMetrics) :
  requestDurations m ≠ [] →
  let r := printMetricsSummary m in
  p50 r ∈ requestDurations m
  ∧ p95 r ∈ requestDurations m
  ∧ p99 r ∈ requestDurations m
  ∧ p50 r ≤ p95 r ∧ p95 r ≤ p99 r.
Proof.
  intros Hne r. unfold r, printMetricsSummary. simpl.
  set (sorted := sortBy compareFn (requestDurations m)).
  assert (Hsne : sorted ≠ []) by by apply sortBy_nonempty.
  assert (H50 := percentile_lookup sorted 50 ltac:(lia) Hsne).
  assert (H95 := percentile_lookup sorted 95 ltac:(lia) Hsne).
  assert (H99 := percentile_lookup sorted 99 ltac:(lia) Hsne).
  assert (Hin : ∀ i v, sorted !! i = Some v → v ∈ requestDurations m).
  { intros i v Hv. rewrite <- (sortBy_Permutation (requestDurations m)).
    apply list_elem_of_lookup. by exists i. }
  split; [by eapply Hin|]. split; [by eapply Hin|]. split; [by eapply Hin|].
  split.
  - apply (Sorted_lookup_le sorted _ _ _ _ (sortBy_Sorted _) H50 H95).
    apply floorOfLength_mono. lia.
  - apply (Sorted_lookup_le sorted _ _ _ _ (sortBy_Sorted _) H95 H99).
    apply floorOfLength_mono. lia.
Qed.

Lemma percentiles_ordered_witness :
  let m : LoadTestMetrics := mkMetrics 4 4 0 0 0 90 [40; 10; 30; 20] [] in
  requestDurations m ≠ []
  ∧ p50 (printMetricsSummary m) ∈ requestDurations m
  ∧ p50 (printMetricsSummary m) ≤ p95 (printMetricsSummary m)
  ∧ p95 (printMetricsSummary m) ≤ p99 (printMetricsSummary m).
Proof.
  intros m.
  assert (Hne : requestDurations m ≠ []) by discriminate.
  destruct (percentiles_ordered m Hne) as (H50 & _ & _ & Hle & Hle').
  split; [exact Hne|]. split; [exact H50|]. split; [exact Hle|exact Hle'].
Defined.

Lemma percentile_maximum (l : list Z) (pct : Z) :
  0 ≤ pct < 100 → l ≠ [] → Z.of_nat (length l) * (100 - pct) ≤ 100 →
  isMaximum (percentile (sortBy compareFn l) pct) l.
Proof.
  intros Hpct Hne Hsmall.
  set (sorted := sortBy compareFn l).
  assert (Hlen : length sorted = length l)
    by apply Permutation_length, sortBy_Permutation.
  assert (Hsne : sorted ≠ []) by by apply sortBy_nonempty.
  assert (Hpos : (0 < length sorted)%nat)
    by (destruct sorted; [done | simpl; lia]).
  assert (Hv := percentile_lookup sorted pct Hpct Hsne).
  rewrite floorOfLength_last in Hv by (rewrite ?Hlen; lia).
  split.
  - rewrite <- (sortBy_Permutation l). apply list_elem_of_lookup. eauto.
  - intros d Hd. rewrite <- (sortBy_Permutation l) in Hd.
    apply list_elem_of_lookup in Hd as [i Hi].
    apply (Sorted_lookup_le sorted i (length sorted - 1) d _
             (sortBy_Sorted l) Hi Hv).
    apply lookup_lt_Some in Hi. fold sorted in Hi. lia.
Qed.

(** X7.  On small samples the percentiles are the maximum: with at most 100
    durations p99 is the largest recorded duration, with at most 20 so is
    p95, and with at most 2 so is p50. *)
Theorem small_sample_percentiles (m : LoadTestMetrics) :
  requestDurations m ≠ [] →
  let r := printMetricsSummary m in
  let n := length (requestDurations m) in
  ((n ≤ 100)%nat → isMaximum (p99 r) (requestDurations m))
  ∧ ((n ≤ 20)%nat → isMaximum (p95 r) (requestDurations m))
  ∧ ((n ≤ 2)%nat → isMaximum (p50 r) (requestDurations m)).
Proof.
  intros Hne r n. unfold r, printMetricsSummary. simpl.
  split; [|split]; intros Hn; apply percentile_maximum; try done; lia.
Qed.

Lemma small_sample_percentiles_witness :
  let m : LoadTestMetrics := mkMetrics 2 2 0 0 0 50 [40; 10] [] in
  requestDurations m ≠ []
  ∧ (length (requestDurations m) ≤ 2)%nat
  ∧ isMaximum (p99 (printMetricsSummary m)) (requestDurations m)
  ∧ isMaximum (p95 (printMetricsSummary m)) (requestDurations m)
  ∧ isMaximum (p50 (printMetricsSummary m)) (requestDurations m)
  ∧ p50 (printMetricsSummary m) = 40.
Proof.
  intros m.
  assert (Hne : requestDurations m ≠ []) by discriminate.
  assert (Hlen : (length (requestDurations m) ≤ 2)%nat) by (simpl; lia).
  destruct (small_sample_percentiles m Hne) as (H99 & H95 & H50).
  split; [exact Hne|]. split; [exact Hlen|].
  split; [apply H99; simpl; lia|]. split; [apply H95; simpl; lia|].
  split; [exact (H50 Hlen)|reflexivity].
Defined.

(** ** The errors shown *)

Lemma sliceTo_spec (n : nat) (s : string) :
  ∃ rest, s = (sliceTo n s ++ rest)%string
          ∧ String.length (sliceTo n s) = Nat.min n (String.length s).
Proof.
  unfold sliceTo. revert s. induction n as [|n IH]; intros s.
  - exists s. by destruct s.
  - destruct s as [|c s]; [by exists EmptyString|].
    destruct (IH s) as (rest & Hrest & Hlen). exists rest. split.
    + exact (f_equal (String c) Hrest).
    + simpl. by rewrite Hlen.
Qed.

(** X8.  The summary shows the first errors of the run only: as many as
    there are, but at most 5, in the order recorded; each shown text is the
    beginning of the recorded message, cut after 100 characters. *)
Theorem first_errors_shown (m : LoadTestMetrics) :
  let shown := firstErrors (printMetricsSummary m) in
  length shown = Nat.min 5 (length (errors m))
  ∧ ∀ (i : nat) (text : string),
      shown !! i = Some text →
      (i < 5)%nat
      ∧ ∃ e rest,
          errors m !! i = Some e
          ∧ err_message e = (text ++ rest)%string
          ∧ String.length text = Nat.min 100 (String.length (err_message e)).
Proof.
  unfold printMetricsSummary. simpl. split.
  - by rewrite length_fmap, length_take.
  - intros i text Hi. rewrite list_lookup_fmap in Hi.
    destruct (take 5 (errors m) !! i) as [e|] eqn:He; [|done].
    injection Hi as <-.
    apply lookup_take_Some in He as [He Hlt]. split; [done|].
    destruct (sliceTo_spec 100 (err_message e)) as (rest & Hrest & Hlen).
    by exists e, rest.
Qed.

Lemma first_errors_shown_witness :
  let m := run [Failure (mkError "timeout") 1; Success 3;
                Failure (mkError "429") 2] in
  firstErrors (printMetricsSummary m) !! 1%nat = Some "429"%string
  ∧ (1 < 5)%nat
  ∧ ∃ e rest,
      errors m !! 1%nat = Some e
      ∧ err_message e = ("429" ++ rest)%string
      ∧ String.length "429" = Nat.min 100 (String.length (err_message e)).
Proof.
  intros m.
  assert (H : firstErrors (printMetricsSummary m) !! 1%nat = Some "429"%string)
    by reflexivity.
  destruct (first_errors_shown m) as [_ Hshown].
  split; [exact H|]. exact (Hshown 1%nat "429"%string H).
Defined.

(** ** The average within the range of the durations *)

Lemma sumZ_bounds (l : list Z) (lo hi : Z) :
  (∀ d, d ∈ l → lo ≤ d ≤ hi) →
  Z.of_nat (length l) * lo ≤ sumZ l ≤ Z.of_nat (length l) * hi.
Proof.
  induction l as [|x l IH]; intros Hall; simpl; [lia|].
  assert (lo ≤ x ≤ hi) by (apply Hall; left).
  assert (Z.of_nat (length l) * lo ≤ sumZ l ≤ Z.of_nat (length l) * hi).
  { apply IH. intros d Hd. apply Hall. by right. }
  unfold sumZ in *. lia.
Qed.

(** X9.  With at least one duration recorded, the reported average lies
    between any lower and upper bound of the recorded durations, so between
    the smallest and the largest of them. *)
Theorem average_within_range (m : LoadTestMetrics) (lo hi : Z) :
  requestDurations m ≠ [] →
  (∀ d, d ∈ requestDurations m → lo ≤ d ≤ hi) →
  ∃ q, avgDuration (printMetricsSummary m) = Finite q
       ∧ (inject_Z lo <= q)%Q ∧ (q <= inject_Z hi)%Q.
Proof.
  intros Hne Hall.
  destruct (average_nonempty _ Hne) as (q & Hq & Hmean).
  exists q. split; [exact Hq|].
  destruct (sumZ_bounds _ lo hi Hall) as [Hlo Hhi].
  set (n := Z.of_nat (length (requestDurations m))) in *.
  assert (Hn : (0 < inject_Z n)%Q).
  { change 0%Q with (inject_Z 0). rewrite <- Zlt_Qlt. unfold n.
    destruct (requestDurations m); [done | simpl; lia]. }
  split.
  - apply (Qmult_le_r _ _ (inject_Z n) Hn).
    rewrite Hmean, <- inject_Z_mult, <- Zle_Qle. lia.
  - apply (Qmult_le_r _ _ (inject_Z n) Hn).
    rewrite Hmean, <- inject_Z_mult, <- Zle_Qle. lia.
Qed.

Lemma average_within_range_witness :
  let m : LoadTestMetrics := mkMetrics 3 3 0 0 0 90 [40; 10; 25] [] in
  requestDurations m ≠ []
  ∧ (∀ d, d ∈ requestDurations m → 10 ≤ d ≤ 40)
  ∧ ∃ q, avgDuration (printMetricsSummary m) = Finite q
         ∧ (inject_Z 10 <= q)%Q ∧ (q <= inject_Z 40)%Q.
Proof.
  intros m.
  assert (Hne : requestDurations m ≠ []) by discriminate.
  assert (Hall : ∀ d, d ∈ requestDurations m → 10 ≤ d ≤ 40).
  { intros d Hd. simpl in Hd.
    rewrite !elem_of_cons, elem_of_nil in Hd. lia. }
  split; [exact Hne|]. split; [exact Hall|].
  exact (average_within_range m 10 40 Hne Hall).
Defined.

(** ** The summary does not depend on completion order *)

Lemma sortBy_Permutation_eq (l l' : list Z) :
  l ≡ₚ l' → sortBy compareFn l = sortBy compareFn l'.
Proof.
  intros Hperm. apply sorted_copy_unique; [apply sortBy_Sorted|].
  by rewrite sortBy_Permutation.
Qed.

(** X10.  Two runs that record the same outcomes in different orders (the
    same requests completing in a different order) report the same totals,
    percentages, average, percentiles and throughput; only the list of
    first errors follows the order. *)
Theorem summary_order_independent (calls calls' : list Call)
    (startTime now : Z) :
  calls ≡ₚ calls' →
  let r := printMetricsSummary (finish (run calls) startTime now) in
  let r' := printMetricsSummary (finish (run calls') startTime now) in
  sum_total r = sum_total r'
  ∧ sum_successful r = sum_successful r'
  ∧ sum_successPct r = sum_successPct r'
  ∧ sum_failed r = sum_failed r'
  ∧ sum_failurePct r = sum_failurePct r'
  ∧ sum_rateLimit r = sum_rateLimit r'
  ∧ sum_other r = sum_other r'
  ∧ avgDuration r = avgDuration r'
  ∧ p50 r = p50 r' ∧ p95 r = p95 r' ∧ p99 r = p99 r'
  ∧ sum_totalDurationMs r = sum_totalDurationMs r'
  ∧ throughput r = throughput r'.
Proof.
  intros Hperm.
  destruct (foldl_record_Permutation _ _ createMetrics Hperm)
    as (Ht & Hs & Hf & Hr & Ho & Hd & _).
  fold (run calls) in *. fold (run calls') in *.
  unfold printMetricsSummary. simpl.
  rewrite Ht, Hs, Hf, Hr, Ho, (average_Permutation _ _ Hd),
    (sortBy_Permutation_eq _ _ Hd).
  by repeat split.
Qed.

Lemma summary_order_independent_witness :
  let calls := [Success 30; Failure (mkError "rate limited") 5; Success 10] in
  let calls' := [Success 10; Failure (mkError "rate limited") 5; Success 30] in
  calls ≡ₚ calls'
  ∧ p50 (printMetricsSummary (finish (run calls) 0 100))
    = p50 (printMetricsSummary (finish (run calls') 0 100))
  ∧ avgDuration (printMetricsSummary (finish (run calls) 0 100))
    = avgDuration (printMetricsSummary (finish (run calls') 0 100)).
Proof.
  intros calls calls'.
  assert (Hperm : calls ≡ₚ calls').
  { apply (reverse_Permutation
             [Success 10; Failure (mkError "rate limited") 5; Success 30]). }
  destruct (summary_order_independent calls calls' 0 100 Hperm)
    as (_ & _ & _ & _ & _ & _ & _ & Havg & H50 & _).
  split; [exact Hperm|]. split; [exact H50|exact Havg].
Defined.

(** ** Bursts *)

Lemma attempt_dispatch {R} (reqStart now : Z) (operation : Settled R) m :
  attempt reqStart operation now m = dispatch reqStart operation now m.
Proof. by destruct operation. Qed.

Lemma successDurations_length {R} (cs : list (Completion R)) :
  length (successDurations (callOf <$> cs))
  = length (List.filter (λ c, isFulfilled (c_outcome c)) cs).
Proof.
  induction cs as [|c cs IH]; [done|].
  rewrite fmap_cons. unfold callOf at 1.
  destruct (c_outcome c) as [v|e] eqn:Hc.
  - change (S (length (successDurations (callOf <$> cs)))
            = length (List.filter (λ c, isFulfilled (c_outcome c)) (c :: cs))).
    simpl. by rewrite Hc, IH.
  - change (length (successDurations (callOf <$> cs))
            = length (List.filter (λ c, isFulfilled (c_outcome c)) (c :: cs))).
    simpl. by rewrite Hc, IH.
Qed.

Lemma filter_length_all {A} (f : A → bool) (l : list A) :
  (length (List.filter f l) =? length l)%nat = forallb f l.
Proof.
  induction l as [|x l IH]; [done|]. simpl.
  destruct (f x); simpl; [exact IH|].
  apply Nat.eqb_neq. pose proof (List.filter_length_le f l). lia.
Qed.

(** X11.  A burst of n operations records n requests, and the two
    assertions of a burst test (successfulRequests is n, rateLimitErrors is
    0) hold exactly when every one of the n operations was fulfilled, in
    whatever order they completed; the assertion on rateLimitErrors adds
    nothing to the first. *)
Theorem burst_expectations {R : Type} (cs : list (Completion R))
    (startTime finishTime : Z) :
  let m := burst cs startTime finishTime in
  totalRequests m = length cs
  ∧ burstExpectations (length cs) m
    = forallb (λ c, isFulfilled (c_outcome c)) cs
  ∧ (successfulRequests m =? length cs)%nat
    = burstExpectations (length cs) m.
Proof.
  intros m.
  assert (Hm : m = finish (run (callOf <$> cs)) startTime finishTime).
  { unfold m, burst, run. f_equal. generalize createMetrics.
    induction cs as [|c cs IH]; intros m0; [done|]. simpl.
    by rewrite attempt_dispatch, dispatch_record, IH. }
  destruct (foldl_record_fields (callOf <$> cs) createMetrics)
    as (Ht & Hs & Hf & Hr & _).
  fold (run (callOf <$> cs)) in Ht, Hs, Hf, Hr. simpl in Ht, Hs, Hf, Hr.
  assert (Hsucc : (successfulRequests m =? length cs)%nat
                  = forallb (λ c, isFulfilled (c_outcome c)) cs).
  { rewrite Hm. simpl.
    by rewrite Hs, successDurations_length, filter_length_all. }
  assert (Hrate : forallb (λ c, isFulfilled (c_outcome c)) cs = true →
                  rateLimitErrors m = 0%nat).
  { intros Hall. rewrite <- Hsucc in Hall. apply Nat.eqb_eq in Hall.
    destruct (foldl_record_consistent (callOf <$> cs) createMetrics
                createMetrics_consistent) as (Hsum & Hsub & _).
    fold (run (callOf <$> cs)) in Hsum, Hsub.
    rewrite Hm in Hall |- *. simpl in *. rewrite length_fmap in Ht. lia. }
  split; [rewrite Hm; simpl; by rewrite Ht, length_fmap|].
  unfold burstExpectations. rewrite Hsucc.
  destruct (forallb _ cs) eqn:Hall; [|done].
  rewrite (Hrate eq_refl). done.
Qed.

(** ** The swap script *)

(** X12.  Past the script's check on its options (a private key or
    --dry-run is required), every iteration of the swap loop records
    exactly one outcome.  In dry-run mode it is the outcome of the
    simulation, whether or not there is a wallet.  Otherwise it is a
    success only if the transaction was sent and its receipt arrived; a
    failed send is recorded as the error and the receipt is not awaited.
    With neither a key nor --dry-run an iteration would record nothing. *)
Theorem swap_iteration_records_once {R H Rc : Type}
    (privateKey : option string) (dryRun : bool)
    (simulate : Settled R) (send : Settled H) (receipt : H → Settled Rc)
    (reqStart now : Z) (m : LoadTestMetrics) :
  (refusesToRun privateKey dryRun = false →
   swapIteration dryRun (haveWallet privateKey) simulate send receipt
     reqStart now m
   = (Fulfilled (),
      record m
        (if dryRun then outcomeCall simulate reqStart now
         else match send with
              | Fulfilled hash => outcomeCall (receipt hash) reqStart now
              | Rejected e => Failure e now
              end)))
  ∧ swapIteration false false simulate send receipt reqStart now m
    = (Fulfilled (), m).
Proof.
  split; [|done].
  unfold refusesToRun, haveWallet. intros Hguard.
  destruct dryRun.
  - by destruct simulate.
  - rewrite andb_true_r in Hguard. apply negb_false_iff in Hguard.
    rewrite Hguard. destruct send as [hash|e]; [|done].
    unfold swapIteration, tryCatch, await. by destruct (receipt hash).
Qed.

Lemma swap_iteration_records_once_witness :
  let lost := mkError "transaction receipt not found" in
  refusesToRun (Some "0xabc"%string) false = false
  ∧ swapIteration (R := ()) false (haveWallet (Some "0xabc"%string))
      (Fulfilled ()) (Fulfilled 7%nat) (λ _ : nat, Rejected (A := ()) lost)
      100 130 createMetrics
    = (Fulfilled (), recordError createMetrics lost 130).
Proof.
  intros lost.
  assert (Hguard : refusesToRun (Some "0xabc"%string) false = false)
    by reflexivity.
  split; [exact Hguard|].
  exact (proj1 (swap_iteration_records_once (R := ()) (Some "0xabc"%string)
                  false (Fulfilled ()) (Fulfilled 7%nat)
                  (λ _ : nat, Rejected (A := ()) lost) 100 130 createMetrics)
           Hguard).
Defined.

Lemma swapIteration_totalRequests {R H Rc : Type} (dryRun wallet : bool)
    (simulate : Settled R) (send : Settled H) (receipt : H → Settled Rc)
    (reqStart now : Z) (m : LoadTestMetrics) :
  dryRun || wallet = true →
  totalRequests
    (swapIteration dryRun wallet simulate send receipt reqStart now m).2
  = S (totalRequests m).
Proof.
  intros Hmode. destruct dryRun; simpl in Hmode.
  - by destruct simulate.
  - rewrite Hmode. destruct send as [hash|e]; [|done].
    unfold swapIteration, tryCatch, await. by destruct (receipt hash).
Qed.

Lemma lt_of_Z (a b : Z) : lt (of_Z a) (of_Z b) = (a <? b).
Proof.
  unfold lt, of_Z. destruct (Z.ltb_spec a b) as [Hlt|Hge].
  - apply Qltb_true. by rewrite <- Zlt_Qlt.
  - apply Qltb_false. by rewrite <- Zle_Qle.
Qed.

Lemma swapLoop_spec {R H Rc : Type} (dryRun wallet : bool)
    (count : Z) (interval : number) (steps : list (SwapStep R H Rc))
    (i : Z) (m : LoadTestMetrics) :
  dryRun || wallet = true →
  0 ≤ i → (Z.to_nat (count - i) ≤ length steps)%nat →
  let result := swapLoop dryRun wallet (of_Z count) interval i steps m in
  length result.1 = Z.to_nat (count - i)
  ∧ totalRequests result.2 = (totalRequests m + Z.to_nat (count - i))%nat
  ∧ ∀ (j : nat) (st : SwapStep R H Rc),
      (j < Z.to_nat (count - i))%nat → steps !! j = Some st →
      result.1 !! j
      = Some (swapPace (s_end st - s_reqStart st) interval
                (i + Z.of_nat j) (of_Z count)).
Proof.
  intros Hmode. revert i m.
  induction steps as [|st steps IH]; intros i m Hi Hlen;
    simpl length in Hlen; cbn [swapLoop].
  - replace (Z.to_nat (count - i)) with 0%nat by lia.
    split; [done|]. split; [simpl; lia|]. intros j st' Hj. lia.
  - rewrite lt_of_Z. destruct (Z.ltb_spec i count) as [Hlt|Hge].
    + specialize (IH (i + 1)
        (swapIteration dryRun wallet (s_simulate st) (s_send st)
           (s_receipt st) (s_reqStart st) (s_now st) m).2
        ltac:(lia) ltac:(lia)).
      destruct (swapLoop dryRun wallet (of_Z count) interval (i + 1) steps _)
        as [actions final].
      cbn [fst snd] in *. destruct IH as (Hl & Ht & Hact).
      replace (Z.to_nat (count - i)) with (S (Z.to_nat (count - (i + 1))))
        by lia.
      split; [simpl; by rewrite Hl|]. split.
      * rewrite Ht, swapIteration_totalRequests by done. lia.
      * intros [|j] st' Hj Hst.
        -- injection Hst as <-. by rewrite Z.add_0_r.
        -- change ((st :: steps) !! S j) with (steps !! j) in Hst.
           change ((?a :: actions) !! S j) with (actions !! j).
           rewrite (Hact j st') by (done || lia). do 2 f_equal. lia.
    + cbn [fst snd]. replace (Z.to_nat (count - i)) with 0%nat by lia.
      split; [done|]. split; [lia|]. intros j st' Hj. lia.
Qed.

Lemma lt_count_pred (j : nat) (n : nat) :
  lt (of_Z (0 + Z.of_nat j)) (sub (of_nat n) (of_Z 1)) = (S j <? n)%nat.
Proof.
  unfold lt, sub, of_nat, of_Z. destruct (Nat.ltb_spec (S j) n) as [Hlt|Hge].
  - apply Qltb_true. rewrite Qred_correct. unfold Qminus.
    rewrite <- inject_Z_opp, <- inject_Z_plus, <- Zlt_Qlt. lia.
  - apply Qltb_false. rewrite Qred_correct. unfold Qminus.
    rewrite <- inject_Z_opp, <- inject_Z_plus, <- Zle_Qle. lia.
Qed.

(** X13.  With --count=n and enough outcomes to meet, the swap loop makes
    exactly n iterations and records n requests.  Iteration j, whose
    request took elapsed ms, pauses exactly when elapsed < intervalMs and it
    is not the last one, and then for intervalMs - elapsed; so the loop
    never pauses after its last swap, and a pause is never negative.  With
    an unparsable --count (NaN) the loop body never runs. *)
Theorem swap_loop_counts {R H Rc : Type} (dryRun wallet : bool)
    (n : nat) (interval : number) (steps : list (SwapStep R H Rc))
    (m : LoadTestMetrics) :
  dryRun || wallet = true →
  (n ≤ length steps)%nat →
  let result := swapLoop dryRun wallet (of_nat n) interval 0 steps m in
  length result.1 = n
  ∧ totalRequests result.2 = (totalRequests m + n)%nat
  ∧ (∀ (j : nat) (st : SwapStep R H Rc),
       (j < n)%nat → steps !! j = Some st →
       let elapsed := s_end st - s_reqStart st in
       result.1 !! j
       = Some (if lt (of_Z elapsed) interval && (S j <? n)%nat
               then Some (sub interval (of_Z elapsed))
               else None))
  ∧ (∀ (j : nat) (d : number),
       result.1 !! j = Some (Some d) →
       (S j < n)%nat ∧ lt d (of_Z 0) = false
       ∧ ∃ st, steps !! j = Some st
               ∧ lt (of_Z (s_end st - s_reqStart st)) interval = true
               ∧ d = sub interval (of_Z (s_end st - s_reqStart st)))
  ∧ swapLoop dryRun wallet NaN interval 0 steps m = ([], m).
Proof.
  intros Hmode Hlen result.
  destruct (swapLoop_spec dryRun wallet (Z.of_nat n) interval steps 0 m
              Hmode ltac:(lia) ltac:(lia)) as (Hl & Ht & Hact).
  fold (of_nat n) in Hl, Ht, Hact. fold result in Hl, Ht, Hact.
  rewrite Z.sub_0_r, Nat2Z.id in Hl, Ht, Hact.
  assert (Hstep : ∀ (j : nat) (st : SwapStep R H Rc),
            (j < n)%nat → steps !! j = Some st →
            result.1 !! j
            = Some (if lt (of_Z (s_end st - s_reqStart st)) interval
                       && (S j <? n)%nat
                    then Some (sub interval (of_Z (s_end st - s_reqStart st)))
                    else None)).
  { intros j st Hjn Hst. rewrite (Hact j st Hjn Hst). unfold swapPace.
    by rewrite lt_count_pred. }
  split; [exact Hl|]. split; [exact Ht|]. split; [exact Hstep|]. split.
  - intros j d Hj.
    assert (Hjn : (j < n)%nat).
    { rewrite <- Hl. by eapply lookup_lt_Some. }
    destruct (lookup_lt_is_Some_2 steps j ltac:(lia)) as [st Hst].
    pose proof (Hstep j st Hjn Hst) as Hs. rewrite Hj in Hs.
    destruct (lt (of_Z (s_end st - s_reqStart st)) interval) eqn:Hlt;
      [|discriminate Hs].
    destruct (Nat.ltb_spec (S j) n) as [Hnext|Hlast]; [|discriminate Hs].
    injection Hs as ->.
    split; [exact Hnext|]. split; [by destruct (sub_positive _ _ Hlt)|].
    by exists st.
  - by destruct steps.
Qed.

Lemma swap_loop_counts_witness :
  let fast : SwapStep () () () :=
    mkSwapStep (Fulfilled ()) (Fulfilled ()) (λ _, Fulfilled ()) 0 40 40 in
  let result :=
    swapLoop true false (of_nat 2) (of_Z 1000) 0 [fast; fast; fast]
      createMetrics in
  true || false = true
  ∧ (2 ≤ length [fast; fast; fast])%nat
  ∧ result.1 = [Some (of_Z 960); None]
  ∧ totalRequests result.2 = 2%nat
  ∧ lt (of_Z 960) (of_Z 0) = false
  ∧ lt (of_Z (s_end fast - s_reqStart fast)) (of_Z 1000) = true
  ∧ result.1 !! 1%nat = Some None.
Proof.
  intros fast result.
  assert (Hmode : true || false = true) by reflexivity.
  assert (Hlen : (2 ≤ length [fast; fast; fast])%nat) by (simpl; lia).
  assert (Hres : result.1 = [Some (of_Z 960); None]) by reflexivity.
  destruct (swap_loop_counts true false 2 (of_Z 1000) [fast; fast; fast]
              createMetrics Hmode Hlen) as (_ & Ht & Hstep & Hact & _).
  fold result in Ht, Hstep, Hact.
  destruct (Hact 0%nat (of_Z 960)) as (_ & Hneg & st & Hst & Hlt & _);
    [by rewrite Hres|].
  injection Hst as <-.
  split; [exact Hmode|]. split; [exact Hlen|]. split; [exact Hres|].
  split; [exact Ht|]. split; [exact Hneg|]. split; [exact Hlt|].
  exact (Hstep 1%nat fast ltac:(lia) eq_refl).
Defined.

(** ** Options from the command line *)

Lemma splitOn_nonempty (sep : ascii) (s : string) : splitOn sep s ≠ [].
Proof.
  induction s as [|c s IH]; [done|]. simpl.
  destruct (Ascii.eqb c sep); [done|]. by destruct (splitOn sep s).
Qed.

(** Behind a flag that ends in [=] there is always a value. *)
Lemma argValue_after_prefix (flag rest : string) :
  is_Some (argValue (flag ++ String "=" rest)).
Proof.
  unfold argValue. induction flag as [|c flag IH].
  - change (EmptyString ++ String "=" rest)%string with (String "=" rest).
    simpl. destruct (splitOn "=" rest) eqn:Hs; [by apply splitOn_nonempty in Hs|].
    by eexists.
  - change (String c flag ++ String "=" rest)%string
      with (String c (flag ++ String "=" rest)).
    cbn [splitOn]. destruct IH as [v Hv].
    destruct (splitOn "=" (flag ++ String "=" rest)) as [|p ps] eqn:Hs;
      [done|].
    destruct (Ascii.eqb c "="); [by eexists|]. by exists v.
Qed.

Lemma prefix_exclusive (arg : string) :
  (String.prefix "--rps=" arg = true → String.prefix "--duration=" arg = false)
  ∧ (String.prefix "--rps=" arg = true →
     String.prefix "--network=" arg = false)
  ∧ (String.prefix "--duration=" arg = true →
     String.prefix "--network=" arg = false).
Proof.
  assert (Hex : ∀ f g : string,
            (∀ x y, (f ++ x)%string ≠ (g ++ y)%string) →
            String.prefix f arg = true → String.prefix g arg = false).
  { intros f g Hfg [x ->]%prefix_spec.
    destruct (String.prefix g (f ++ x)) eqn:Hg; [|done].
    apply prefix_spec in Hg as [y Hy]. by destruct (Hfg x y). }
  repeat split; apply Hex; intros x y Heq; by inversion Heq.
Qed.

Lemma lastWith_snoc (flag : string) (args : list string) (arg : string) :
  lastWith flag (args ++ [arg])
  = if String.prefix flag arg then Some arg else lastWith flag args.
Proof.
  unfold lastWith. rewrite List.filter_app. simpl.
  destruct (String.prefix flag arg); [apply last_snoc | by rewrite app_nil_r].
Qed.

(** X14.  Of the arguments given to the quote and pool-read scripts only
    the last --rps=, the last --duration= and the last --network= count:
    each sets its own option and no other, earlier ones are overridden, and
    every other argument is ignored; an option without its flag keeps its
    default. *)
Theorem parseArgs_last_flag_wins (defaults : Options) (args : list string) :
  let options := parseArgs defaults args in
  rps options
  = match lastWith "--rps=" args with
    | Some arg => parseIntArg arg
    | None => rps defaults
    end
  ∧ duration options
    = match lastWith "--duration=" args with
      | Some arg => parseIntArg arg
      | None => duration defaults
      end
  ∧ network options
    = match lastWith "--network=" args with
      | Some arg => default EmptyString (argValue arg)
      | None => network defaults
      end.
Proof.
  induction args as [|arg args IH] using rev_ind; [done|].
  unfold parseArgs in *. rewrite foldl_app, !lastWith_snoc. simpl.
  destruct IH as (Hr & Hd & Hn).
  destruct (prefix_exclusive arg) as (Hrd & Hrn & Hdn).
  unfold applyArg.
  destruct (String.prefix "--rps=" arg) eqn:Pr.
  { rewrite (Hrd eq_refl), (Hrn eq_refl). by simpl. }
  destruct (String.prefix "--duration=" arg) eqn:Pd.
  { rewrite (Hdn eq_refl). by simpl. }
  destruct (String.prefix "--network=" arg) eqn:Pn; by simpl.
Qed.

(** ** [parseInt] *)
















(** ** Degenerate rates and durations *)

Lemma intervalMs_positive (z : Z) :
  0 < z →
  ∃ q, intervalMs (of_Z z) = Finite q ∧ (q * inject_Z z == 1000)%Q.
Proof.
  intros Hz. unfold intervalMs, div, of_Z.
  assert (Hnz : ¬ (inject_Z z == 0)%Q).
  { change 0%Q with (inject_Z 0). rewrite inject_Z_injective. lia. }
  destruct (Qeq_bool (inject_Z z) 0) eqn:Hq; [by apply Qeq_bool_eq in Hq|].
  eexists. split; [reflexivity|].
  rewrite Qred_correct. change (inject_Z 1000) with 1000%Q. by field.
Qed.

Lemma negative_quotient (e q r : Q) :
  (0 <= e)%Q → (r < 0)%Q → (q * r == 1000)%Q → (q <= e)%Q.
Proof. intros. nra. Qed.

(** X16.  What the rate option does to the pacing.  A positive rate r
    gives an interval of 1000/r ms: an iteration that took less is paused
    for the rest of it, a positive time that lies between 1000/r rounded
    down and 1000/r rounded up, less the time taken; one that took as long
    or longer is not paused.  An unparsable rate (NaN) disables pacing: no
    iteration is ever paused.  With --rps=0 the interval is infinite: every
    iteration asks for an infinite pause.  A negative rate disables pacing
    as well, as long as the clock does not run backwards. *)
Theorem pacing_by_rate (elapsed : Z) :
  pace elapsed (intervalMs NaN) = None
  ∧ (∀ defaults : Options,
       pace elapsed
         (intervalMs (rps (parseArgs defaults ["--rps=0"%string])))
       = Some PosInf)
  ∧ (∀ r : Z, r < 0 → 0 ≤ elapsed →
       pace elapsed (intervalMs (of_Z r)) = None)
  ∧ (∀ r : Z, 0 < r → elapsed * r < 1000 →
       ∃ q, pace elapsed (intervalMs (of_Z r)) = Some (Finite q)
            ∧ (0 < q)%Q
            ∧ (inject_Z (1000 / r - elapsed) <= q)%Q
            ∧ (q <= inject_Z (- (-1000 / r) - elapsed))%Q)
  ∧ (∀ r : Z, 0 < r → 1000 ≤ elapsed * r →
       pace elapsed (intervalMs (of_Z r)) = None).
Proof.
  split; [done|]. split; [done|]. split; [|split].
  - intros r Hr He. unfold intervalMs, div, of_Z.
    assert (Hnz : ¬ (inject_Z r == 0)%Q).
    { change 0%Q with (inject_Z 0). rewrite inject_Z_injective. lia. }
    destruct (Qeq_bool (inject_Z r) 0) eqn:Hq; [by apply Qeq_bool_eq in Hq|].
    unfold pace, lt, of_Z.
    assert (Hfalse : Qltb (inject_Z elapsed)
                       (Qred (inject_Z 1000 / inject_Z r)) = false).
    { apply Qltb_false. rewrite Qred_correct.
      apply negative_quotient with (inject_Z r).
      - change 0%Q with (inject_Z 0). by rewrite <- Zle_Qle.
      - change 0%Q with (inject_Z 0). by rewrite <- Zlt_Qlt.
      - change (inject_Z 1000) with 1000%Q. by field. }
    by rewrite Hfalse.
  - intros r Hr Hlt.
    destruct (intervalMs_positive r Hr) as (q & Hq & Hqr).
    rewrite Hq. unfold pace, lt, sub, of_Z.
    assert (Hrpos : (0 < inject_Z r)%Q).
    { change 0%Q with (inject_Z 0). by rewrite <- Zlt_Qlt. }
    assert (Htrue : Qltb (inject_Z elapsed) q = true).
    { apply Qltb_true. apply (Qmult_lt_r _ _ (inject_Z r) Hrpos).
      rewrite Hqr, <- inject_Z_mult. change 1000%Q with (inject_Z 1000).
      by rewrite <- Zlt_Qlt. }
    rewrite Htrue. eexists. split; [reflexivity|].
    rewrite Qred_correct.
    assert (Hdown : (inject_Z (1000 / r) <= q)%Q).
    { apply (Qmult_le_r _ _ (inject_Z r) Hrpos).
      rewrite Hqr, <- inject_Z_mult. change 1000%Q with (inject_Z 1000).
      rewrite <- Zle_Qle. pose proof (Z.mul_div_le 1000 r Hr). lia. }
    assert (Hup : (q <= inject_Z (- (-1000 / r)))%Q).
    { apply (Qmult_le_r _ _ (inject_Z r) Hrpos).
      rewrite Hqr, <- inject_Z_mult. change 1000%Q with (inject_Z 1000).
      rewrite <- Zle_Qle. pose proof (Z.mul_div_le (-1000) r Hr). lia. }
    apply Qltb_true in Htrue.
    unfold Z.sub. rewrite !inject_Z_plus, !inject_Z_opp.
    rewrite inject_Z_opp in Hup.
    split; [lra|]. split; lra.
  - intros r Hr Hge.
    destruct (intervalMs_positive r Hr) as (q & Hq & Hqr).
    rewrite Hq. unfold pace, lt, of_Z.
    assert (Hrpos : (0 < inject_Z r)%Q).
    { change 0%Q with (inject_Z 0). by rewrite <- Zlt_Qlt. }
    assert (Hfalse : Qltb (inject_Z elapsed) q = false).
    { apply Qltb_false. apply (Qmult_le_r _ _ (inject_Z r) Hrpos).
      rewrite Hqr, <- inject_Z_mult. change 1000%Q with (inject_Z 1000).
      by rewrite <- Zle_Qle. }
    by rewrite Hfalse.
Qed.

Lemma pacing_by_rate_witness :
  (-5 < 0) ∧ (0 < 3) ∧ (0 ≤ 30) ∧ (30 * 3 < 1000)
  ∧ pace 30 (intervalMs (of_Z (-5))) = None
  ∧ ∃ q, pace 30 (intervalMs (of_Z 3)) = Some (Finite q)
         ∧ (0 < q)%Q ∧ (inject_Z 303 <= q)%Q ∧ (q <= inject_Z 304)%Q.
Proof.
  assert (Hneg : -5 < 0) by lia.
  assert (Hpos : 0 < 3) by lia.
  assert (He : 0 ≤ 30) by lia.
  assert (Hlt : 30 * 3 < 1000) by lia.
  destruct (pacing_by_rate 30) as (_ & _ & Hnegative & Hpositive & _).
  split; [exact Hneg|]. split; [exact Hpos|]. split; [exact He|].
  split; [exact Hlt|]. split; [exact (Hnegative (-5) Hneg He)|].
  exact (Hpositive 3 Hpos Hlt).
Defined.

(** The loop with a number for a deadline is, for a deadline that is an
    integer, the loop of [sustainedLoop]. *)
Lemma sustainedRun_integer (endTime : Z) (interval : number) (clock : list Z) :
  sustainedRun (of_Z endTime) interval clock
  = sustainedLoop endTime interval clock.
Proof.
  assert (Hlen : ∀ (n : nat) (l : list Z),
            (length l ≤ n)%nat →
            sustainedRun (of_Z endTime) interval l
            = sustainedLoop endTime interval l).
  { induction n as [|n IH]; intros [|t [|s [|t' l]]] Hl; try done.
    - simpl in Hl. lia.
    - cbn [sustainedRun sustainedLoop]. rewrite lt_of_Z.
      destruct (t <? endTime); [|done].
      rewrite IH; [done | simpl in Hl; lia]. }
  by apply (Hlen (length clock)).
Qed.

Lemma endTimeOf_integer (startTime d : Z) :
  ∃ q, endTimeOf startTime (of_Z d) = Finite q
       ∧ (q == inject_Z (startTime + d * 1000))%Q.
Proof.
  unfold endTimeOf, add, mul, of_Z. eexists. split; [reflexivity|].
  rewrite !Qred_correct, inject_Z_plus, inject_Z_mult. reflexivity.
Qed.

(** X17.  With an unparsable --duration (NaN) the deadline is NaN, the
    loop test fails at once, and the script sends no request, reports
    NaN percentages and ends with status 0.  With a duration of zero or
    less it sends no request either, as long as the clock has not run
    backwards since the start. *)
Theorem no_duration_no_requests {R : Type} (options : Options)
    (startTime finishTime : Z) (clock : list Z)
    (completions : list (Completion R)) :
  (duration options = NaN →
   sustainedScript options startTime finishTime clock completions
   = ([], finish createMetrics startTime finishTime, 0)
   ∧ sum_successPct
       (printMetricsSummary (finish createMetrics startTime finishTime))
     = NaN)
  ∧ (∀ (d t : Z) (clock' : list Z),
       duration options = of_Z d → d ≤ 0 →
       clock = t :: clock' → startTime ≤ t →
       sustainedScript options startTime finishTime clock completions
       = ([], finish createMetrics startTime finishTime, 0)).
Proof.
  split.
  - intros Hnan. unfold sustainedScript. rewrite Hnan.
    assert (Hrun : sustainedRun (endTimeOf startTime NaN)
                     (intervalMs (rps options)) clock = []).
    { by destruct clock as [|t [|s [|t' clock]]]. }
    by rewrite Hrun.
  - intros d t clock' Hd Hle -> Ht. unfold sustainedScript. rewrite Hd.
    destruct (endTimeOf_integer startTime d) as (q & Hq & Hval).
    assert (Hrun : sustainedRun (endTimeOf startTime (of_Z d))
                     (intervalMs (rps options)) (t :: clock') = []).
    { destruct clock' as [|s [|t' clock']]; try done.
      cbn [sustainedRun]. rewrite Hq. unfold lt, of_Z.
      assert (Hfalse : Qltb (inject_Z t) q = false).
      { apply Qltb_false. rewrite Hval, <- Zle_Qle. lia. }
      by rewrite Hfalse. }
    by rewrite Hrun.
Qed.

Lemma no_duration_no_requests_witness :
  let options := parseArgs quoteDefaults ["--duration=soon"%string] in
  let late := parseArgs quoteDefaults ["--duration=-3"%string] in
  duration options = NaN
  ∧ duration late = of_Z (-3) ∧ -3 ≤ 0 ∧ 5000 ≤ 5000
  ∧ sustainedScript (R := ()) options 5000 5001 [5000; 5000; 5001] []
    = ([], finish createMetrics 5000 5001, 0)
  ∧ sustainedScript (R := ()) late 5000 5001 [5000; 5000; 5001] []
    = ([], finish createMetrics 5000 5001, 0).
Proof.
  intros options late.
  assert (Hnan : duration options = NaN) by reflexivity.
  assert (Hlate : duration late = of_Z (-3)) by reflexivity.
  assert (Hle : -3 ≤ 0) by lia.
  assert (Ht : 5000 ≤ 5000) by lia.
  split; [exact Hnan|]. split; [exact Hlate|]. split; [exact Hle|].
  split; [exact Ht|]. split.
  - exact (proj1 (proj1 (no_duration_no_requests (R := ()) options 5000 5001
                           [5000; 5000; 5001] []) Hnan)).
  - exact (proj2 (no_duration_no_requests (R := ()) late 5000 5001
                    [5000; 5000; 5001] [])
             (-3) 5000 [5000; 5001] Hlate Hle eq_refl Ht).
Defined.

(** ** Networks *)

(** X18.  [getNetwork] returns a configuration only for the chain ids 4326
    and 6343, and the configuration returned carries the chain id asked
    for; every other id is answered with the error whose message is
    "Unknown chain ID: " followed by the id as the template literal prints
    it.  For a configuration so obtained, [createClient] picks the chain of
    the same id, whose RPC URL is the configuration's, and connects to that
    URL without retries. *)
Theorem getNetwork_lookup (numberToString : Z → string) (c : Z) :
  match getNetwork numberToString c with
  | inr network =>
      (c = 4326 ∨ c = 6343)
      ∧ chainId network = c
      ∧ chain_id (chain (createClient network)) = c
      ∧ rpcHttp (chain (createClient network)) = [rpc network]
      ∧ transportUrl (createClient network) = rpc network
      ∧ retryCount (createClient network) = 0
  | inl e =>
      c ≠ 4326 ∧ c ≠ 6343
      ∧ message e = ("Unknown chain ID: " ++ numberToString c)%string
  end.
Proof.
  unfold getNetwork.
  destruct (Z.eqb_spec c 4326) as [->|Hm]; [by repeat split; try left|].
  destruct (Z.eqb_spec c 6343) as [->|Ht]; [by repeat split; try right|].
  done.
Qed.

(** The test network, and an unknown chain with small integers printed in
    decimal. *)
Lemma getNetwork_lookup_witness :
  let numberToString := λ z : Z, NilZero.string_of_int (Z.to_int z) in
  getNetwork numberToString 6343 = inr MEGAETH_TESTNET
  ∧ chain_id (chain (createClient MEGAETH_TESTNET)) = 6343
  ∧ ∃ e, getNetwork numberToString 1 = inl e
         ∧ message e = "Unknown chain ID: 1"%string.
Proof.
  intros numberToString.
  pose proof (getNetwork_lookup numberToString 6343) as Hknown.
  pose proof (getNetwork_lookup numberToString 1) as Hunknown.
  change (getNetwork numberToString 6343)
    with (inr (A := Error) MEGAETH_TESTNET) in Hknown.
  destruct (getNetwork numberToString 1) as [e|network] eqn:Hone;
    [|discriminate Hone].
  destruct Hknown as (_ & _ & Hchain & _).
  destruct Hunknown as (_ & _ & Hmessage).
  split; [reflexivity|]. split; [exact Hchain|].
  exists e. split; [reflexivity|exact Hmessage].
Defined.

(** X19.  Whatever the value of --network, the scripts find their pool, so
    the exit on a missing pool is never taken, and the chain they talk to is
    the one of the chosen configuration, as [createClient] would set it up.
    Only the exact value mainnet selects the main network; any other value
    selects the test network.  The pool's token1, which the scripts use as
    the input token, is WETH on the main network but USDC on the test
    network, where WETH is token0. *)
Theorem script_network_selection (name : string) :
  ∃ pool : Pool,
    scriptPool name = Some pool
    ∧ scriptClient name = createClient (scriptNetwork name)
    ∧ chain_id (scriptChain name) = chainId (scriptNetwork name)
    ∧ rpcHttp (scriptChain name) = [rpc (scriptNetwork name)]
    ∧ scriptNetwork name
      = (if String.eqb name "mainnet" then MEGAETH_MAINNET
         else MEGAETH_TESTNET)
    ∧ (if String.eqb name "mainnet"
       then contracts (scriptNetwork name) !! "WETH9"%string
            = Some (token1 pool)
       else contracts (scriptNetwork name) !! "WETH9"%string
            = Some (token0 pool)
            ∧ tokens (scriptNetwork name) !! "USDC"%string
              = Some (token1 pool)).
Proof.
  unfold scriptPool, scriptClient, scriptChain, scriptNetwork.
  destruct (String.eqb name "mainnet").
  - eexists. split; [vm_compute; reflexivity|].
    repeat split; vm_compute; reflexivity.
  - eexists. split; [vm_compute; reflexivity|].
    repeat split; vm_compute; reflexivity.
Qed.

(** ** Chunks *)

Lemma ceil_div_step (x size : nat) :
  (0 < size)%nat → (0 < x)%nat →
  ((x + size - 1) / size = S ((x - size + size - 1) / size))%nat.
Proof.
  intros Hsize Hx. destruct (le_lt_dec size x) as [Hle|Hlt].
  - replace (x + size - 1)%nat with (x - size + size - 1 + 1 * size)%nat
      by lia.
    rewrite Nat.div_add by lia. lia.
  - replace (x - size + size - 1)%nat with (size - 1)%nat by lia.
    rewrite (Nat.div_small (size - 1)) by lia.
    replace (x + size - 1)%nat with (x - 1 + 1 * size)%nat by lia.
    rewrite Nat.div_add by lia. rewrite Nat.div_small by lia. lia.
Qed.

Lemma chunkLoop_spec {A} (size : nat) (amounts : list A) (fuel i : nat) :
  (0 < size)%nat → (length amounts - i ≤ fuel)%nat →
  let chunks := chunkLoop fuel size i amounts in
  mjoin chunks = drop i amounts
  ∧ Forall (λ c, (0 < length c ≤ size)%nat) chunks
  ∧ length chunks = ((length amounts - i + size - 1) / size)%nat
  ∧ ∀ k, (S k < length chunks)%nat →
         length <$> chunks !! k = Some size.
Proof.
  intros Hsize. revert i.
  induction fuel as [|fuel IH]; intros i Hfuel; cbn [chunkLoop].
  - rewrite drop_ge by lia.
    replace (length amounts - i)%nat with 0%nat by lia.
    rewrite Nat.add_0_l, Nat.div_small by lia.
    repeat split; [constructor | simpl; lia].
  - destruct (Nat.ltb_spec i (length amounts)) as [Hlt|Hge].
    + destruct (IH (i + size)%nat ltac:(lia)) as (Hjoin & Hall & Hlen & Hfull).
      set (rest := chunkLoop fuel size (i + size) amounts) in *.
      assert (Hslice : length (slice i (i + size) amounts)
                       = Nat.min size (length amounts - i)).
      { unfold slice. rewrite length_take, length_drop. lia. }
      split; [|split; [|split]].
      * change (slice i (i + size) amounts ++ mjoin rest = drop i amounts).
        rewrite Hjoin. unfold slice.
        replace (i + size - i)%nat with size by lia.
        rewrite <- drop_drop. apply take_drop.
      * constructor; [rewrite Hslice; lia | exact Hall].
      * cbn [length]. rewrite Hlen.
        rewrite (ceil_div_step (length amounts - i)) by lia.
        do 3 f_equal. lia.
      * intros [|k] Hk; cbn [length] in Hk.
        -- simpl. f_equal. rewrite Hslice.
           assert (0 < length rest)%nat as Hrest by lia.
           rewrite Hlen in Hrest.
           assert (size ≤ length amounts - i)%nat; [|lia].
           destruct (le_lt_dec size (length amounts - i)); [done|].
           replace (length amounts - (i + size))%nat with 0%nat in Hrest
             by lia.
           rewrite Nat.add_0_l, Nat.div_small in Hrest by lia. lia.
        -- simpl. apply Hfull. lia.
    + rewrite drop_ge by lia.
      replace (length amounts - i)%nat with 0%nat by lia.
      rewrite Nat.add_0_l, Nat.div_small by lia.
      repeat split; [constructor | simpl; lia].
Qed.

(** X20.  Chunking with a positive chunk size loses and reorders nothing:
    the chunks, laid end to end, are the original sequence.  No chunk is
    empty or longer than the chunk size, every chunk but the last is full,
    and there are ceil(length / size) of them.  With the tests' size of 3,
    ten amounts give four chunks. *)
Theorem chunks_partition {A : Type} (size : nat) (amounts : list A) :
  (0 < size)%nat →
  let chunks := chunksOf size amounts in
  mjoin chunks = amounts
  ∧ Forall (λ c, (0 < length c ≤ size)%nat) chunks
  ∧ length chunks = ((length amounts + size - 1) / size)%nat
  ∧ (∀ k, (S k < length chunks)%nat → length <$> chunks !! k = Some size)
  ∧ (length amounts = 10%nat → length (chunksOf CHUNK_SIZE amounts) = 4%nat).
Proof.
  intros Hsize chunks.
  destruct (chunkLoop_spec size amounts (length amounts) 0 Hsize ltac:(lia))
    as (Hjoin & Hall & Hlen & Hfull).
  fold (chunksOf size amounts) in Hjoin, Hall, Hlen, Hfull.
  rewrite Nat.sub_0_r in Hlen.
  split; [exact Hjoin|]. split; [exact Hall|]. split; [exact Hlen|].
  split; [exact Hfull|].
  intros Hten.
  destruct (chunkLoop_spec CHUNK_SIZE amounts (length amounts) 0
              ltac:(unfold CHUNK_SIZE; lia) ltac:(lia)) as (_ & _ & Hl & _).
  fold (chunksOf CHUNK_SIZE amounts) in Hl. rewrite Hl, Hten. reflexivity.
Qed.

Lemma chunks_partition_witness :
  let amounts := [1; 5; 10; 50; 100; 500; 1000; 2000; 5000; 10000] in
  (0 < CHUNK_SIZE)%nat
  ∧ length amounts = 10%nat
  ∧ chunksOf CHUNK_SIZE amounts
    = [[1; 5; 10]; [50; 100; 500]; [1000; 2000; 5000]; [10000]]
  ∧ mjoin (chunksOf CHUNK_SIZE amounts) = amounts
  ∧ length (chunksOf CHUNK_SIZE amounts) = 4%nat.
Proof.
  intros amounts.
  assert (Hsize : (0 < CHUNK_SIZE)%nat) by (unfold CHUNK_SIZE; lia).
  assert (Hten : length amounts = 10%nat) by reflexivity.
  destruct (chunks_partition CHUNK_SIZE amounts Hsize)
    as (Hjoin & _ & _ & _ & Hfour).
  split; [exact Hsize|]. split; [exact Hten|]. split; [reflexivity|].
  split; [exact Hjoin|exact (Hfour Hten)].
Defined.

(** ** Pool addresses *)

Lemma ltb_total (a b : string) :
  a ≠ b → String.ltb a b = false → String.ltb b a = true.
Proof.
  unfold String.ltb. intros Hne.
  rewrite (String.compare_antisym a b).
  destruct (String.compare b a) eqn:Hc; simpl; try done.
  apply String.compare_eq_iff in Hc. by destruct Hne.
Qed.

Lemma ltb_asym (a b : string) :
  String.ltb a b = true → String.ltb b a = false.
Proof.
  unfold String.ltb. rewrite (String.compare_antisym a b).
  by destruct (String.compare b a).
Qed.

(** X21.  The address computed for a pool does not depend on the order in
    which its two tokens are given, whenever the tokens differ by more than
    letter case; this holds whatever the hash and encoding functions
    are. *)
Theorem computePoolAddress_symmetric
    (keccak256 : string → string)
    (encodeAbiParameters : string → string → Z → string)
    (concat : list string → string) (getAddress : string → string)
    (factoryAddress tokenA tokenB : string) (fee : Z)
    (initCodeHash : string) :
  toLowerCase tokenA ≠ toLowerCase tokenB →
  sortTokens tokenA tokenB = sortTokens tokenB tokenA
  ∧ computePoolAddress keccak256 encodeAbiParameters concat getAddress
      factoryAddress tokenA tokenB fee initCodeHash
    = computePoolAddress keccak256 encodeAbiParameters concat getAddress
        factoryAddress tokenB tokenA fee initCodeHash.
Proof.
  intros Hne.
  assert (Hsort : sortTokens tokenA tokenB = sortTokens tokenB tokenA).
  { unfold sortTokens.
    destruct (String.ltb (toLowerCase tokenA) (toLowerCase tokenB)) eqn:Hab.
    - by rewrite (ltb_asym _ _ Hab).
    - by rewrite (ltb_total _ _ Hne Hab). }
  split; [exact Hsort|]. unfold computePoolAddress. by rewrite Hsort.
Qed.

Lemma computePoolAddress_symmetric_witness :
  let weth := "0x4200000000000000000000000000000000000006"%string in
  let duck := "0x021ee124cF23D302A7f725AE7a01B77A8ce9782B"%string in
  toLowerCase weth ≠ toLowerCase duck
  ∧ sortTokens weth duck = (duck, weth)
  ∧ sortTokens weth duck = sortTokens duck weth.
Proof.
  intros weth duck.
  assert (Hne : toLowerCase weth ≠ toLowerCase duck) by discriminate.
  split; [exact Hne|]. split; [reflexivity|].
  exact (proj1 (computePoolAddress_symmetric id (λ a b _, a ++ b)%string
                  (foldr String.append EmptyString) id
                  "0x68b34591f662508076927803c567Cc8006988a09"%string
                  weth duck 10000 EmptyString Hne)).
Defined.

(** ** Cycling through the operations *)

Lemma succ_div_mod (n len : nat) :
  (0 < len)%nat →
  (S (n mod len) < len ∧ S n / len = n / len ∧ S n mod len = S (n mod len))%nat
  ∨ (S (n mod len) = len ∧ S n / len = S (n / len) ∧ S n mod len = 0)%nat.
Proof.
  intros Hlen.
  pose proof (Nat.div_mod_eq n len) as Hn.
  pose proof (Nat.mod_upper_bound n len ltac:(lia)) as Hr.
  destruct (decide (S (n mod len) < len)%nat) as [Hlt|Hge].
  - left. split; [done|].
    assert (Hq : (S n / len = n / len)%nat).
    { symmetry. apply (Nat.div_unique _ _ _ (S (n mod len))); lia. }
    split; [done|].
    symmetry. apply (Nat.mod_unique _ _ (n / len)); lia.
  - right. split; [lia|].
    assert (Hq : (S n / len = S (n / len))%nat).
    { symmetry. apply (Nat.div_unique _ _ _ 0); lia. }
    split; [done|].
    symmetry. apply (Nat.mod_unique _ _ (S (n / len))); lia.
Qed.

Lemma cycle_count (len n j : nat) :
  (j < len)%nat →
  length (List.filter (Nat.eqb j) (cycle len n))
  = (n / len + if (j <? n mod len)%nat then 1 else 0)%nat.
Proof.
  intros Hj. assert (Hlen : (0 < len)%nat) by lia.
  induction n as [|n IH].
  - simpl. rewrite Nat.Div0.div_0_l, Nat.Div0.mod_0_l. done.
  - unfold cycle in *. rewrite seq_S, fmap_app, List.filter_app, length_app, IH.
    simpl.
    destruct (succ_div_mod n len Hlen) as [(Hr & -> & ->)|(Hr & -> & ->)].
    + destruct (Nat.eqb_spec j (n mod len)) as [->|Hne]; simpl.
      * rewrite Nat.ltb_irrefl. rewrite (proj2 (Nat.ltb_lt _ _)) by lia. lia.
      * destruct (Nat.ltb_spec j (n mod len)), (Nat.ltb_spec j (S (n mod len)));
          lia.
    + destruct (Nat.eqb_spec j (n mod len)) as [->|Hne]; simpl.
      * rewrite Nat.ltb_irrefl. lia.
      * destruct (Nat.ltb_spec j (n mod len)); simpl; lia.
Qed.

Lemma operationFor_cycle {A : Type} (operations : list A) (n : nat) :
  operationFor operations <$> seq 0 n
  = (λ j, operations !! j) <$> cycle (length operations) n.
Proof.
  unfold cycle. rewrite <- list_fmap_compose. done.
Qed.

(** X22.  The pool-read script cycles through its operations: with at
    least one operation every request index selects one (the lookup is
    never out of range); the operations used by the first n requests are
    those at the positions 0, 1, ..., count - 1, 0, 1, ... in this order,
    so request i uses the operation at position j exactly when
    i mod count = j, the operations being distinct; and after n requests
    each position has been used floor(n / count) times, plus once more for
    the first n mod count of them, so no operation is ever used two times
    more than another. *)
Theorem operations_cycle {A : Type} (operations : list A) (n : nat) :
  operations ≠ [] →
  (∀ requestIndex : nat, is_Some (operationFor operations requestIndex))
  ∧ operationFor operations <$> seq 0 n
    = (λ j, operations !! j) <$> cycle (length operations) n
  ∧ (∀ requestIndex j : nat,
       (requestIndex < n)%nat →
       cycle (length operations) n !! requestIndex = Some j →
       (j < length operations)%nat
       ∧ j = (requestIndex mod length operations)%nat
       ∧ operationFor operations requestIndex = operations !! j)
  ∧ (NoDup operations →
     ∀ (requestIndex j : nat) (operation : A),
       operations !! j = Some operation →
       operationFor operations requestIndex = Some operation
       ↔ (requestIndex mod length operations)%nat = j)
  ∧ (∀ j : nat,
       (j < length operations)%nat →
       length (List.filter (Nat.eqb j) (cycle (length operations) n))
       = (n / length operations
          + if (j <? n mod length operations)%nat then 1 else 0)%nat)
  ∧ (∀ j k : nat,
       (j < length operations)%nat → (k < length operations)%nat →
       (length (List.filter (Nat.eqb j) (cycle (length operations) n))
        ≤ S (length (List.filter (Nat.eqb k)
                       (cycle (length operations) n))))%nat).
Proof.
  intros Hne.
  assert (Hlen : (0 < length operations)%nat)
    by (destruct operations; [done | simpl; lia]).
  split; [|split; [|split; [|split; [|split]]]].
  - intros requestIndex. apply lookup_lt_is_Some_2, Nat.mod_upper_bound. lia.
  - apply operationFor_cycle.
  - intros requestIndex j Hi Hj. unfold cycle in Hj.
    rewrite list_lookup_fmap, lookup_seq_lt in Hj by done.
    injection Hj as <-.
    split; [apply Nat.mod_upper_bound; lia|]. done.
  - intros Hnodup requestIndex j operation Hj. unfold operationFor. split.
    + intros Hi. by eapply NoDup_lookup.
    + by intros ->.
  - intros j Hj. by apply cycle_count.
  - intros j k Hj Hk. rewrite !cycle_count by done.
    destruct (j <? _)%nat, (k <? _)%nat; lia.
Qed.

Lemma operations_cycle_witness :
  let operations :=
    ["slot0"; "liquidity"; "token0"; "token1"; "fee"; "totalSupply"]%string in
  operations ≠ []
  ∧ operationFor operations 13 = Some "liquidity"%string
  ∧ cycle (length operations) 8 = [0; 1; 2; 3; 4; 5; 0; 1]%nat
  ∧ operationFor operations <$> seq 0 8
    = (λ j, operations !! j) <$> cycle (length operations) 8
  ∧ operationFor operations 7 = operations !! 1%nat
  ∧ length (List.filter (Nat.eqb 1) (cycle (length operations) 8)) = 2%nat
  ∧ length (List.filter (Nat.eqb 4) (cycle (length operations) 8)) = 1%nat.
Proof.
  intros operations.
  assert (Hne : operations ≠ []) by discriminate.
  destruct (operations_cycle operations 8 Hne)
    as (_ & Hused & Hposition & _ & Hcount & _).
  split; [exact Hne|]. split; [reflexivity|]. split; [reflexivity|].
  split; [exact Hused|]. split.
  - exact (proj2 (proj2 (Hposition 7%nat 1%nat ltac:(lia) eq_refl))).
  - split.
    + exact (Hcount 1%nat ltac:(simpl; lia)).
    + exact (Hcount 4%nat ltac:(simpl; lia)).
Defined.

(** ** Options of the swap script *)

Lemma applySwapArg_fields (options : SwapOptions) (arg : string) :
  dryRun (applySwapArg options arg)
  = dryRun options || String.eqb arg "--dry-run"
  ∧ privateKey (applySwapArg options arg)
    = if String.prefix "--private-key=" arg then argValue arg
      else privateKey options.
Proof.
  unfold applySwapArg.
  destruct (String.eqb_spec arg "--dry-run") as [->|Hne].
  - simpl. by rewrite orb_true_r.
  - rewrite orb_false_r.
    by repeat match goal with
       | |- context [if String.prefix ?f arg then _ else _] =>
           destruct (String.prefix f arg)
       end.
Qed.

(** X23.  The swap script runs in dry-run mode exactly when one of its
    arguments is --dry-run, spelled exactly so (--dry-run=true is not
    recognised), and no later argument turns it off again.  Its private key
    is the value of the last --private-key= argument.  So it refuses to
    run exactly when --dry-run is absent and that last value is missing or
    empty. *)
Theorem swap_options (args : list string) :
  let options := parseSwapArgs args in
  dryRun options = bool_decide ("--dry-run"%string ∈ args)
  ∧ privateKey options
    = match lastWith "--private-key=" args with
      | Some arg => argValue arg
      | None => None
      end
  ∧ refusesToRun (privateKey options) (dryRun options)
    = negb (bool_decide ("--dry-run"%string ∈ args))
      && negb (truthy match lastWith "--private-key=" args with
                      | Some arg => argValue arg
                      | None => None
                      end).
Proof.
  assert (Hfields :
    dryRun (parseSwapArgs args) = bool_decide ("--dry-run"%string ∈ args)
    ∧ privateKey (parseSwapArgs args)
      = match lastWith "--private-key=" args with
        | Some arg => argValue arg
        | None => None
        end).
  { induction args as [|arg args IH] using rev_ind; [done|].
    unfold parseSwapArgs in *. rewrite foldl_app, lastWith_snoc. simpl.
    destruct (applySwapArg_fields (foldl applySwapArg swapDefaults args) arg)
      as [-> ->].
    destruct IH as [-> ->]. split.
    - destruct (String.eqb_spec arg "--dry-run") as [->|Hne].
      + rewrite orb_true_r. symmetry. apply bool_decide_eq_true.
        apply elem_of_app. right. by left.
      + rewrite orb_false_r. apply bool_decide_ext.
        rewrite elem_of_app, list_elem_of_singleton.
        split; [by left | by intros [?|?]].
    - by destruct (String.prefix "--private-key=" arg). }
  destruct Hfields as [Hd Hk]. simpl. rewrite Hd, Hk.
  split; [done|]. split; [done|]. unfold refusesToRun. apply andb_comm.
Qed.
